(** * Mirror feed engine: reactions, ranking, paging and delivery

    A shallow embedding of the feed logic of the Mirror client
    (the single-file React application): the reaction helpers
    ([normalizeReactionCounts], [normalizeReactedBy],
    [computeReactionTotal], [computeSteezeScore]), [normalizePost],
    [rankPosts], the pager ([visibleFeedPosts], [loadMoreFeed]),
    and the optimistic mutations [reactToPost], [addReflectionComment]
    and [createPost].

    Conventions of the embedding.
    - A JS object used as a dictionary is a [gmap] keyed by strings.
    - Reaction counts and engagement totals are JS numbers holding
      integers; they are [Z].  Scores are exact rationals in canonical
      form ([Qc]), so that equality of values is equality of numbers;
      the rounding of IEEE doubles is not represented, and the
      properties of the sort are stated for every way of computing the
      scores ([rankWith]), the exact one included.
    - A string is its sequence of code units, each below 256 (Latin-1
      text); code units above that are not represented.
    - A field that the code only ever reads through [x || d] is stored
      with its falsy value (0, the empty string, [false]) when absent;
      a field whose presence is tested is an [option].
    - React state updates [setPosts (prev => ...)] are functions from
      the previous list of posts to the next one. *)

From Stdlib Require Import ZArith QArith Qcanon Lia Ascii String Sorted.
From stdpp Require Import gmap strings list fin_maps pretty.

Local Open Scope Z_scope.

(** ** Reaction helpers *)

Definition reactionKeys : list string :=
  ["annoyed"; "love"; "surprised"; "thumbs_up"; "laugh"]%string.

Definition includes (l : list string) (s : string) : bool :=
  bool_decide (s ∈ l).

Definition createEmptyReactionCounts : gmap string Z :=
  foldl (λ counts key, <[key := 0]> counts) ∅ reactionKeys.

(** [Number(value[key]) || 0]: a missing key gives NaN, hence 0. *)
Definition normalizeReactionCounts (value : option (gmap string Z)) : gmap string Z :=
  let fallback := createEmptyReactionCounts in
  match value with
  | None => fallback
  | Some v =>
      foldl (λ counts key, <[key := default 0 (v !! key)]> counts) fallback reactionKeys
  end.

Definition normalizeReactedBy (value : option (gmap string string)) : gmap string string :=
  match value with
  | None => ∅
  | Some v =>
      map_fold (λ userId reactionKey next,
                  if bool_decide (userId = ""%string) || negb (includes reactionKeys reactionKey)
                  then next
                  else <[userId := reactionKey]> next) ∅ v
  end.

Definition computeReactionTotal (reactionsCount : option (gmap string Z)) : Z :=
  let counts := normalizeReactionCounts reactionsCount in
  foldl (λ sum key, sum + default 0 (counts !! key)) 0 reactionKeys.

(** [Math.min] and [Math.max] on numbers. *)
Definition Qcmin (x y : Qc) : Qc := if decide (x ≤ y)%Qc then x else y.
Definition Qcmax (x y : Qc) : Qc := if decide (x ≤ y)%Qc then y else x.

(** [Math.min(99, Number((engagements * 0.1).toFixed(1)))]; on an integer
    engagement count the product is already a multiple of one tenth. *)
Definition computeSteezeScore (engagementCount : Z) : Qc :=
  let engagements := Z.max 0 engagementCount in
  Qcmin (Qc_of_Z 99) (Qc_of_Z engagements * Q2Qc (1 # 10)).

(** JS [x || d] on numbers. *)
Definition orZ (x d : Z) : Z := if Z.eqb x 0 then d else x.
Definition orQ (x d : Qc) : Qc := if decide (x = Qc_of_Z 0) then d else x.
Definition orS (x d : string) : string := if bool_decide (x = ""%string) then d else x.

(** ** Timestamps *)

Inductive Timestamp :=
| TsAbsent                    (* undefined, null or any other value *)
| TsFirestore (millis : Z)    (* an object with a [toMillis] method *)
| TsNumber (n : Z)
| TsSeconds (seconds : Z).    (* a plain object with numeric [seconds] *)

Definition toMillis (value : Timestamp) : Z :=
  match value with
  | TsAbsent => 0
  | TsFirestore ms => ms
  | TsNumber n => n
  | TsSeconds s => s * 1000
  end.

Definition feedWindowMs : Z := 24 * 60 * 60 * 1000.
Definition feedPageSize : nat := 12.

(** ** Posts *)

Record Comment := mkComment {
  c_id : string;
  c_user_id : string;
  c_text : string;
  c_author_name : string;
  c_author_handle : string;
  c_author_avatar_url : string;
  c_created_at : Z;
}.

(** The fields of a post object that the feed engine reads or writes.
    Purely presentational fields (author labels, thumbnail, view and flag
    counters, campus) are carried along unchanged by every operation and
    are left out.  The provenance flags and [_feedScore] exist only on
    entries produced by [rankPosts]; elsewhere they are absent, which the
    code reads as falsy ([false], and 0 for the score, which is only read
    by the sort inside [rankPosts] after it has been set). *)
Record Post := mkPost {
  id : string;
  user_id : string;
  created_at : Timestamp;
  caption : string;
  tags : list string;
  image_url : string;
  engagement_count : Z;
  reactions_count : gmap string Z;
  reacted_by : gmap string string;
  comments_count : Z;
  comments : list Comment;
  steeze_score : Qc;
  media_type : string;
  moderated_status : string;
  delivery_status : option string;
  _fromMine : bool;
  _fromFollowing : bool;
  _fromCampus : bool;
  _fromGlobal : bool;
  _feedScore : Qc;
}.

(** [{...post, reacted_by, reactions_count, engagement_count, steeze_score}] *)
Definition withReactions (post : Post) (rb : gmap string string) (rc : gmap string Z)
    (eng : Z) (steeze : Qc) : Post :=
  mkPost (id post) (user_id post) (created_at post) (caption post) (tags post)
    (image_url post) eng rc rb (comments_count post) (comments post) steeze
    (media_type post) (moderated_status post) (delivery_status post)
    (_fromMine post) (_fromFollowing post) (_fromCampus post) (_fromGlobal post)
    (_feedScore post).

(** [{...post, comments, comments_count}] *)
Definition withComments (post : Post) (cs : list Comment) (n : Z) : Post :=
  mkPost (id post) (user_id post) (created_at post) (caption post) (tags post)
    (image_url post) (engagement_count post) (reactions_count post) (reacted_by post)
    n cs (steeze_score post)
    (media_type post) (moderated_status post) (delivery_status post)
    (_fromMine post) (_fromFollowing post) (_fromCampus post) (_fromGlobal post)
    (_feedScore post).

(** [{...post, image_url, media_type}] *)
Definition withMedia (post : Post) (url mediaType : string) : Post :=
  mkPost (id post) (user_id post) (created_at post) (caption post) (tags post)
    url (engagement_count post) (reactions_count post) (reacted_by post)
    (comments_count post) (comments post) (steeze_score post)
    mediaType (moderated_status post) (delivery_status post)
    (_fromMine post) (_fromFollowing post) (_fromCampus post) (_fromGlobal post)
    (_feedScore post).

(** [{...post, id, delivery_status}] *)
Definition withDelivery (post : Post) (newId : string) (status : option string) : Post :=
  mkPost newId (user_id post) (created_at post) (caption post) (tags post)
    (image_url post) (engagement_count post) (reactions_count post) (reacted_by post)
    (comments_count post) (comments post) (steeze_score post)
    (media_type post) (moderated_status post) status
    (_fromMine post) (_fromFollowing post) (_fromCampus post) (_fromGlobal post)
    (_feedScore post).

(** The provenance flags of a merged entry. *)
Definition withFlags (post : Post) (mine following campus global : bool) : Post :=
  mkPost (id post) (user_id post) (created_at post) (caption post) (tags post)
    (image_url post) (engagement_count post) (reactions_count post) (reacted_by post)
    (comments_count post) (comments post) (steeze_score post)
    (media_type post) (moderated_status post) (delivery_status post)
    mine following campus global (_feedScore post).

(** [{...post, _feedScore}] *)
Definition withFeedScore (post : Post) (score : Qc) : Post :=
  mkPost (id post) (user_id post) (created_at post) (caption post) (tags post)
    (image_url post) (engagement_count post) (reactions_count post) (reacted_by post)
    (comments_count post) (comments post) (steeze_score post)
    (media_type post) (moderated_status post) (delivery_status post)
    (_fromMine post) (_fromFollowing post) (_fromCampus post) (_fromGlobal post)
    score.

(** ** Stored records and [normalizePost] *)

Module Doc.
(** The data of a stored [picture_posts] document.  [reactions_count],
    [reacted_by] and [liked_by] are optional because [normalizePost]
    tests their presence. *)
Record t := mk {
  user_id : string;
  created_at : Timestamp;
  caption : string;
  tags : list string;
  image_url : string;
  engagement_count : Z;
  reactions_count : option (gmap string Z);
  reacted_by : option (gmap string string);
  likes_count : Z;
  liked_by : option (list string);
  comments_count : Z;
  comments : list Comment;
  steeze_score : Qc;
  media_type : string;
  moderated_status : string;
}.
End Doc.

(** Truthiness of [obj[key]] for an object holding strings. *)
Definition truthyS (o : option string) : bool :=
  match o with
  | Some s => negb (bool_decide (s = ""%string))
  | None => false
  end.

(** [if (userId && !reactedBy[userId]) reactedBy[userId] = 'thumbs_up'] *)
Definition addFallbackLike (reactedBy : gmap string string) (userId : string)
    : gmap string string :=
  if negb (bool_decide (userId = ""%string)) && negb (truthyS (reactedBy !! userId))
  then <[userId := "thumbs_up"%string]> reactedBy
  else reactedBy.

Definition normalizePost (docId : string) (data : Doc.t) : Post :=
  let reactionsCount := normalizeReactionCounts (Doc.reactions_count data) in
  let reactedBy := normalizeReactedBy (Doc.reacted_by data) in
  let fallbackLikes := orZ (Doc.likes_count data) 0 in
  let fallbackLikedBy := default [] (Doc.liked_by data) in
  let fallbackReactionCount := Z.max fallbackLikes (Z.of_nat (length fallbackLikedBy)) in
  let reactionsCount :=
    if negb (bool_decide (is_Some (Doc.reactions_count data))) && (0 <? fallbackReactionCount)
    then <["thumbs_up"%string := fallbackReactionCount]> reactionsCount
    else reactionsCount in
  let reactedBy :=
    if negb (bool_decide (is_Some (Doc.reacted_by data)))
       && negb (Nat.eqb (length fallbackLikedBy) 0)
    then foldl addFallbackLike reactedBy fallbackLikedBy
    else reactedBy in
  let engagementCount :=
    orZ (Doc.engagement_count data) (computeReactionTotal (Some reactionsCount)) in
  {| id := docId;
     user_id := Doc.user_id data;
     created_at := Doc.created_at data;
     caption := Doc.caption data;
     tags := Doc.tags data;
     image_url := Doc.image_url data;
     engagement_count := engagementCount;
     reactions_count := reactionsCount;
     reacted_by := reactedBy;
     comments_count := orZ (Doc.comments_count data) 0;
     comments := Doc.comments data;
     steeze_score := orQ (Doc.steeze_score data) (Qc_of_Z 0);
     media_type := orS (Doc.media_type data) "image";
     moderated_status := orS (Doc.moderated_status data) "active";
     delivery_status := None;
     _fromMine := false;
     _fromFollowing := false;
     _fromCampus := false;
     _fromGlobal := false;
     _feedScore := Qc_of_Z 0 |}.

(** ** The reaction toggle *)

(** [reactedBy[currentUserId] || null] *)
Definition currentReactionOf (reactedBy : gmap string string) (userId : string)
    : option string :=
  match reactedBy !! userId with
  | Some k => if bool_decide (k = ""%string) then None else Some k
  | None => None
  end.

(** [if (current && counts[current] > 0) counts[current] -= 1] *)
Definition decrementCurrent (counts : gmap string Z) (current : option string)
    : gmap string Z :=
  match current with
  | Some c =>
      match counts !! c with
      | Some n => if 0 <? n then <[c := n - 1]> counts else counts
      | None => counts
      end
  | None => counts
  end.

(** [if (next) counts[next] += 1]; [next] is one of [reactionKeys], all of
    which are present in normalized counts. *)
Definition incrementNext (counts : gmap string Z) (next : option string)
    : gmap string Z :=
  match next with
  | Some n => <[n := default 0 (counts !! n) + 1]> counts
  | None => counts
  end.

(** The values computed by [reactToPost] before it touches any state:
    the normalized pre-mutation map and counts, and the next map, counts,
    engagement total and score. *)
Record ReactionDelta := mkDelta {
  currentReactedBy : gmap string string;
  currentReactionsCount : gmap string Z;
  isRemoving : bool;
  nextReactedBy : gmap string string;
  nextReactionsCount : gmap string Z;
  nextEngagement : Z;
  nextSteeze : Qc;
}.

Definition reactionDelta (currentUserId reactionKey : string) (target : Post)
    : ReactionDelta :=
  let currentReactedBy := normalizeReactedBy (Some (reacted_by target)) in
  let currentReactionsCount := normalizeReactionCounts (Some (reactions_count target)) in
  let currentReaction := currentReactionOf currentReactedBy currentUserId in
  let isRemoving := bool_decide (currentReaction = Some reactionKey) in
  let nextReaction := if isRemoving then None else Some reactionKey in
  let nextReactedBy :=
    if isRemoving then delete currentUserId currentReactedBy
    else <[currentUserId := reactionKey]> currentReactedBy in
  let nextReactionsCount :=
    incrementNext (decrementCurrent currentReactionsCount currentReaction) nextReaction in
  let nextEngagement := computeReactionTotal (Some nextReactionsCount) in
  mkDelta currentReactedBy currentReactionsCount isRemoving nextReactedBy
    nextReactionsCount nextEngagement (computeSteezeScore nextEngagement).

(** The optimistic patch of one post of the list. *)
Definition applyOptimisticReaction (d : ReactionDelta) (post : Post) : Post :=
  withReactions post (nextReactedBy d) (nextReactionsCount d) (nextEngagement d)
    (nextSteeze d).

(** The patch applied by the [catch] branch. *)
Definition applyReactionRollback (d : ReactionDelta) (target post : Post) : Post :=
  withReactions post (currentReactedBy d) (currentReactionsCount d)
    (orZ (engagement_count target)
         (computeReactionTotal (Some (currentReactionsCount d))))
    (orQ (steeze_score target)
         (computeSteezeScore (computeReactionTotal (Some (currentReactionsCount d))))).

(** [prev.map((post) => post.id === postId ? patch(post) : post)] *)
Definition patchPost (postId : string) (patch : Post → Post) (prev : list Post)
    : list Post :=
  map (λ post, if bool_decide (id post = postId) then patch post else post) prev.

(** [posts.find((post) => post.id === postId)] *)
Definition findPost (postId : string) (posts : list Post) : option Post :=
  List.find (λ post, bool_decide (id post = postId)) posts.

(** What the user and the session contribute to a mutation. *)
Record Session := mkSession {
  currentUserId : string;
  suspended : bool;                (* [profile.suspended] *)
  isAdmin : bool;
  remoteEnabled : bool;            (* [isFirebaseConfigured && !previewUser] *)
  pendingReactions : gset string;  (* post ids with a reaction in flight *)
  pendingComments : gset string;
}.

(** The final outcome of the remote step of a mutation. *)
Inductive RemoteOutcome := RemoteOk | RemoteFailed.

(** [reactToPost]: the list of posts after the optimistic patch and the
    reconciliation with the outcome of the remote step, with no other
    update of the list in between. *)
Definition reactToPost (s : Session) (posts : list Post) (postId reactionKey : string)
    (outcome : RemoteOutcome) : list Post :=
  if negb (includes reactionKeys reactionKey) then posts else
  match findPost postId posts with
  | None => posts
  | Some target =>
      if bool_decide (currentUserId s = ""%string) then posts else
      if suspended s then posts else
      if bool_decide (postId ∈ pendingReactions s) then posts else
      let d := reactionDelta (currentUserId s) reactionKey target in
      let optimistic := patchPost postId (applyOptimisticReaction d) posts in
      match (if remoteEnabled s then outcome else RemoteOk) with
      | RemoteOk => optimistic
      | RemoteFailed => patchPost postId (applyReactionRollback d target) optimistic
      end
  end.

(** The body of the transaction: the same delta computed against the
    stored record.  It returns the fields written by
    [transaction.update]: engagement, counts, map and score. *)
Definition reactionTransaction (currentUserId reactionKey : string) (data : Doc.t)
    : Doc.t :=
  let dbReactedBy := normalizeReactedBy (Doc.reacted_by data) in
  let dbReactionsCount := normalizeReactionCounts (Doc.reactions_count data) in
  let dbCurrentReaction := currentReactionOf dbReactedBy currentUserId in
  let dbRemoving := bool_decide (dbCurrentReaction = Some reactionKey) in
  let dbNextReaction := if dbRemoving then None else Some reactionKey in
  let dbReactionsCount := decrementCurrent dbReactionsCount dbCurrentReaction in
  let dbReactionsCount := incrementNext dbReactionsCount dbNextReaction in
  let dbReactedBy :=
    match dbNextReaction with
    | Some k => <[currentUserId := k]> dbReactedBy
    | None => delete currentUserId dbReactedBy
    end in
  let updatedEngagement := computeReactionTotal (Some dbReactionsCount) in
  let updatedSteeze := computeSteezeScore updatedEngagement in
  Doc.mk (Doc.user_id data) (Doc.created_at data) (Doc.caption data) (Doc.tags data)
    (Doc.image_url data) updatedEngagement (Some dbReactionsCount) (Some dbReactedBy)
    (Doc.likes_count data) (Doc.liked_by data) (Doc.comments_count data)
    (Doc.comments data) updatedSteeze (Doc.media_type data) (Doc.moderated_status data).

(** ** The ranker *)

Inductive Source := SrcMine | SrcFollowing | SrcCampus | SrcGlobal.

#[global] Instance Source_eq_dec : EqDecision Source.
Proof. solve_decision. Defined.

(** The snapshots held per subscription; [following] has one snapshot per
    followee shard, in ascending shard index ([Object.values]). *)
Record BucketState := mkBuckets {
  campus : list Post;
  mine : list Post;
  following : list (list Post);
  global : list Post;
}.

(** [merged] is a JS [Map] keyed by post id: a list of entries in order of
    first insertion; [set] on a known key replaces the entry in place. *)
Fixpoint mergedSet (merged : list Post) (next : Post) : list Post :=
  match merged with
  | [] => [next]
  | entry :: rest =>
      if bool_decide (id entry = id next) then next :: rest
      else entry :: mergedSet rest next
  end.

Definition mergedGet (merged : list Post) (rowId : string) : option Post :=
  findPost rowId merged.

(** [previous?.flag || false] *)
Definition previousFlag (previous : option Post) (flag : Post → bool) : bool :=
  match previous with
  | Some p => flag p
  | None => false
  end.

(** [{...(previous || {}), ...row, _fromMine: ..., ...}]: every key that
    [row] has wins, and a key that [row] lacks keeps the value of
    [previous].  [normalizePost] sets the identifier, the reaction and
    comment fields, the score, the tags, the media type and the moderation
    status on every row, so these always come from [row]; a delivery
    status, which rows coming out of [normalizePost] do not have, is
    inherited.  The author, the creation time, the caption and the image
    address are copied from the stored record; rows are taken to carry
    them, as every record written by [createPost] does, so that they come
    from [row] as well. *)
Definition addToMerged (merged : list Post) (row : Post) (source : Source) : list Post :=
  let previous := mergedGet merged (id row) in
  let inherited :=
    match delivery_status row with
    | Some st => Some st
    | None => previous ≫= delivery_status
    end in
  let next :=
    withFlags (withDelivery row (id row) inherited)
      (previousFlag previous _fromMine || bool_decide (source = SrcMine))
      (previousFlag previous _fromFollowing || bool_decide (source = SrcFollowing))
      (previousFlag previous _fromCampus || bool_decide (source = SrcCampus))
      (previousFlag previous _fromGlobal || bool_decide (source = SrcGlobal)) in
  mergedSet merged next.

Definition addBucket (source : Source) (merged : list Post) (rows : list Post)
    : list Post :=
  foldl (λ m row, addToMerged m row source) merged rows.

Definition mergeBuckets (bucketState : BucketState) : list Post :=
  let merged := addBucket SrcMine [] (mine bucketState) in
  let merged := addBucket SrcCampus merged (campus bucketState) in
  let merged := foldl (addBucket SrcFollowing) merged (following bucketState) in
  addBucket SrcGlobal merged (global bucketState).

(** The lower-case form of a code unit: the letters A to Z and the
    accented capitals U+00C0 to U+00DE (the multiplication sign U+00D7
    apart) move up by 32. *)
Definition lowerChar (c : ascii) : ascii :=
  let n := nat_of_ascii c in
  if ((65 <=? n)%nat && (n <=? 90)%nat)
     || ((192 <=? n)%nat && (n <=? 222)%nat && negb (n =? 215)%nat)
  then ascii_of_nat (n + 32) else c.

(** [String(tag).toLowerCase()]. *)
Fixpoint toLowerCase (s : string) : string :=
  match s with
  | EmptyString => EmptyString
  | String c rest => String (lowerChar c) (toLowerCase rest)
  end.

(** [map.set(key, (map.get(key) || 0) + w)] *)
Definition bumpWeight (w : Z) (weights : gmap string Z) (key : string) : gmap string Z :=
  <[key := orZ (default 0 (weights !! key)) 0 + w]> weights.

Definition interactionAuthorWeights (currentUserId : string) (merged : list Post)
    : gmap string Z :=
  foldl (λ weights post,
           if truthyS (reacted_by post !! currentUserId)
           then bumpWeight 5 weights (user_id post)
           else weights) ∅ merged.

Definition interactionTagWeights (currentUserId : string) (merged : list Post)
    : gmap string Z :=
  foldl (λ weights post,
           if truthyS (reacted_by post !! currentUserId)
           then foldl (λ w tag, bumpWeight 2 w (toLowerCase tag)) weights (tags post)
           else weights) ∅ merged.

Definition inWindow (nowMs : Z) (post : Post) : bool :=
  let createdMs := toMillis (created_at post) in
  (0 <? createdMs) && (nowMs - createdMs <=? feedWindowMs).

Definition recencyScore (nowMs : Z) (post : Post) : Qc :=
  let ageHours :=
    Qcmax (Qc_of_Z 0)
      (Qc_of_Z (nowMs - toMillis (created_at post)) / Qc_of_Z 3600000) in
  (Qcmax (Qc_of_Z 0) (Qc_of_Z 24 - ageHours) * Qc_of_Z 4)%Qc.

Definition engagementScore (post : Post) : Qc :=
  (Qc_of_Z (orZ (engagement_count post) 0) * Q2Qc (22 # 10))%Qc.

Definition styleScore (styleSet : gset string) (post : Post) : Z :=
  foldl (λ count tag, count + if bool_decide (toLowerCase tag ∈ styleSet) then 2 else 0)
    0 (tags post).

Definition interactionScore (tagWeights : gmap string Z) (post : Post) : Z :=
  foldl (λ total tag, total + orZ (default 0 (tagWeights !! toLowerCase tag)) 0)
    0 (tags post).

Definition authorAffinity (authorWeights : gmap string Z) (post : Post) : Z :=
  orZ (default 0 (authorWeights !! user_id post)) 0.

Definition sourceBoost (post : Post) : Z :=
  (if _fromMine post then 120 else 0) + (if _fromFollowing post then 45 else 0)
  + (if _fromCampus post then 12 else 0) + (if _fromGlobal post then 6 else 0).

Definition feedScore (nowMs : Z) (styleSet : gset string)
    (tagWeights authorWeights : gmap string Z) (post : Post) : Qc :=
  (Qc_of_Z (sourceBoost post) + recencyScore nowMs post + engagementScore post
   + Qc_of_Z (styleScore styleSet post) + Qc_of_Z (interactionScore tagWeights post)
   + Qc_of_Z (authorAffinity authorWeights post))%Qc.

(** [Array.prototype.sort] with the comparator
    [(a, b) => b._feedScore - a._feedScore]: a stable sort.  [a] goes
    before [b] unless the comparator is positive, that is unless
    [a._feedScore < b._feedScore]. *)
Fixpoint insertByScore (a : Post) (sorted : list Post) : list Post :=
  match sorted with
  | [] => [a]
  | b :: rest =>
      if decide (_feedScore b ≤ _feedScore a)%Qc then a :: b :: rest
      else b :: insertByScore a rest
  end.

Definition sortByScore (posts : list Post) : list Post :=
  foldr insertByScore [] posts.

(** The entries of [merged] inside the window, each with its score, in
    [merged] order: the array that [rankPosts] hands to [sort]. *)
Definition scoredPosts (nowMs : Z) (styleTags : list string) (currentUserId : string)
    (bucketState : BucketState) : list Post :=
  let styleSet : gset string := list_to_set (map toLowerCase styleTags) in
  let merged := mergeBuckets bucketState in
  let tagWeights := interactionTagWeights currentUserId merged in
  let authorWeights := interactionAuthorWeights currentUserId merged in
  map (λ post, withFeedScore post (feedScore nowMs styleSet tagWeights authorWeights post))
    (List.filter (inWindow nowMs) merged).

Definition rankPosts (nowMs : Z) (styleTags : list string) (currentUserId : string)
    (bucketState : BucketState) : list Post :=
  sortByScore (scoredPosts nowMs styleTags currentUserId bucketState).

(** ** The pager and the visible selection *)

Definition visiblePosts (isAdmin : bool) (posts : list Post) : list Post :=
  List.filter
    (λ post, isAdmin
             || negb (bool_decide (orS (moderated_status post) "active" = "hidden"%string)))
    posts.

Definition homePosts (visible : list Post) : list Post :=
  List.filter (λ post, bool_decide (orS (media_type post) "text" = "text"%string)) visible.

(** [selectedHashtag] is the empty string when no hashtag is selected. *)
Definition moodFilteredHomePosts (selectedHashtag : string) (home : list Post)
    : list Post :=
  if bool_decide (selectedHashtag = ""%string) then home
  else List.filter
         (λ post, includes (map toLowerCase (tags post)) selectedHashtag) home.

(** [moodFilteredHomePosts.slice(0, feedVisibleCount)]; the count is never
    negative, it is a [nat]. *)
Definition visibleFeedPosts (moodFiltered : list Post) (feedVisibleCount : nat)
    : list Post :=
  take feedVisibleCount moodFiltered.

Record PagerState := mkPager {
  feedVisibleCount : nat;
  feedFetchLimit : nat;
}.

(** [next >= length - 2] is an integer comparison: it holds for every
    [next] when the list has fewer than two entries, as the truncated
    subtraction on [nat] gives. *)
Definition loadMoreFeed (moodFiltered : list Post) (st : PagerState) : PagerState :=
  let next := Nat.min (length moodFiltered) (feedVisibleCount st + feedPageSize) in
  let limitValue :=
    if (length moodFiltered - 2 <=? next)%nat
    then Nat.min 1200 (feedFetchLimit st + 120)
    else feedFetchLimit st in
  mkPager next limitValue.

(** ** Comments *)

(** The white space and line terminators that [trim] strips, among the
    code units below 256: tab to carriage return, the space and the
    no-break space U+00A0. *)
Definition isSpace (c : ascii) : bool :=
  let n := nat_of_ascii c in
  (n =? 32)%nat || ((9 <=? n)%nat && (n <=? 13)%nat) || (n =? 160)%nat.

Fixpoint trimStart (s : string) : string :=
  match s with
  | String c rest => if isSpace c then trimStart rest else s
  | EmptyString => EmptyString
  end.

(** [s.trim()]. *)
Definition trim (s : string) : string :=
  String.rev (trimStart (String.rev (trimStart s))).

(** [s.slice(0, n)] *)
Definition sliceTo (n : nat) (s : string) : string := String.substring 0 n s.

(** The identity shown on a comment: the private alias or the profile
    name, the handle and the avatar; all three are computed from the
    profile and the privacy setting before any state is touched. *)
Record CommentAuthor := mkAuthor {
  commentAuthorName : string;
  commentAuthorHandle : string;
  commentAvatar : string;
}.

Definition buildComment (currentUserId : string) (author : CommentAuthor) (text : string)
    (nowMs : Z) : Comment :=
  {| c_id := currentUserId +:+ "-" +:+ pretty nowMs;
     c_user_id := currentUserId;
     c_text := sliceTo 220 text;
     c_author_name := commentAuthorName author;
     c_author_handle := commentAuthorHandle author;
     c_author_avatar_url := commentAvatar author;
     c_created_at := nowMs |}.

Definition appendComment (nextComment : Comment) (post : Post) : Post :=
  withComments post (comments post ++ [nextComment]) (orZ (comments_count post) 0 + 1).

(** [addReflectionComment]: the optimistic append, then the outcome of
    the remote step.  The [catch] branch only logs and sets a message; it
    does not touch the list of posts. *)
Definition addReflectionComment (s : Session) (author : CommentAuthor)
    (posts : list Post) (postId draft : string) (nowMs : Z)
    (outcome : RemoteOutcome) : list Post :=
  match findPost postId posts with
  | None => posts
  | Some target =>
      if bool_decide (media_type target = "text"%string) then posts else
      if suspended s then posts else
      if bool_decide (postId ∈ pendingComments s) then posts else
      let text := trim draft in
      if bool_decide (text = ""%string) || bool_decide (currentUserId s = ""%string)
      then posts else
      let nextComment := buildComment (currentUserId s) author text nowMs in
      let optimistic := patchPost postId (appendComment nextComment) posts in
      match (if remoteEnabled s then outcome else RemoteOk) with
      | RemoteOk => optimistic
      | RemoteFailed => optimistic
      end
  end.

(** [list.slice(-n)]: the last [n] entries. *)
Definition lastN {A} (n : nat) (l : list A) : list A := drop (length l - n) l.

(** The body of the comment transaction on the stored record. *)
Definition commentTransaction (nextComment : Comment) (data : Doc.t) : Doc.t :=
  if bool_decide (orS (Doc.media_type data) "text" = "text"%string) then data else
  let updatedComments := lastN 150 (Doc.comments data ++ [nextComment]) in
  Doc.mk (Doc.user_id data) (Doc.created_at data) (Doc.caption data) (Doc.tags data)
    (Doc.image_url data) (Doc.engagement_count data) (Doc.reactions_count data)
    (Doc.reacted_by data) (Doc.likes_count data) (Doc.liked_by data)
    (Z.of_nat (length updatedComments)) updatedComments (Doc.steeze_score data)
    (Doc.media_type data) (Doc.moderated_status data).

(** ** Creating a post *)

(** The composer: the caption, the mode (['text'] or ['reflection']), the
    selected file if any (with its preview URL), and the hashtags that the
    caption contains. *)
Record Draft := mkDraft {
  draftCaption : string;
  postMode : string;
  selectedFile : bool;
  previewUrl : string;
  extractedTags : list string;
}.

(** [uploadMedia(selectedFile)] returns the uploaded media or throws. *)
Inductive UploadOutcome :=
| Uploaded (url mediaType : string)
| UploadFailed.

(** [addDoc] followed by [logActivity]: the new document id, or a throw. *)
Inductive PublishOutcome :=
| Published (docId : string)
| PublishFailed.

Definition tempIdAt (nowMs : Z) : string := "local-post-" +:+ pretty nowMs.

Definition optimisticPost (s : Session) (draft : Draft) (nowMs : Z) : Post :=
  let engagementCount := 0 in
  {| id := tempIdAt nowMs;
     user_id := currentUserId s;
     created_at := TsNumber nowMs;
     caption := trim (draftCaption draft);
     tags := extractedTags draft;
     image_url := orS (previewUrl draft) "";
     engagement_count := engagementCount;
     reactions_count := createEmptyReactionCounts;
     reacted_by := ∅;
     comments_count := 0;
     comments := [];
     steeze_score := computeSteezeScore engagementCount;
     media_type :=
       if bool_decide (postMode draft = "reflection"%string) then "image" else "text";
     moderated_status := "active";
     delivery_status := Some "sending"%string;
     _fromMine := false;
     _fromFollowing := false;
     _fromCampus := false;
     _fromGlobal := false;
     _feedScore := Qc_of_Z 0 |}.

(** The create round-trip after the media step: [Published] relabels the
    entry, [PublishFailed] is the [catch] branch.  Without a remote store
    nothing is sent and the entry is left as it is. *)
Definition publishStep (s : Session) (tempId : string) (publish : PublishOutcome)
    (prev : list Post) : list Post :=
  if remoteEnabled s then
    match publish with
    | Published docId =>
        patchPost tempId (λ post, withDelivery post docId (Some "sent"%string)) prev
    | PublishFailed =>
        patchPost tempId (λ post, withDelivery post (id post) (Some "failed"%string)) prev
    end
  else prev.

Definition createPost (s : Session) (isPublishing : bool) (draft : Draft) (nowMs : Z)
    (upload : UploadOutcome) (publish : PublishOutcome) (prev : list Post)
    : list Post :=
  if bool_decide (currentUserId s = ""%string) || isPublishing then prev else
  if suspended s then prev else
  if bool_decide (trim (draftCaption draft) = ""%string) then prev else
  if bool_decide (postMode draft = "reflection"%string) && negb (selectedFile draft)
  then prev else
  let tempId := tempIdAt nowMs in
  let prev := optimisticPost s draft nowMs :: prev in
  if selectedFile draft then
    match upload with
    | Uploaded url mediaType =>
        publishStep s tempId publish
          (patchPost tempId (λ post, withMedia post url mediaType) prev)
    | UploadFailed =>
        List.filter (λ post, negb (bool_decide (id post = tempId))) prev
    end
  else publishStep s tempId publish prev.

(** ** The reaction accounting invariant *)

(** [counts[key] || 0] *)
Definition countOf (counts : gmap string Z) (key : string) : Z :=
  default 0 (counts !! key).

(** The number of users that the map sends to the reaction kind [k]. *)
Definition reactors (k : string) (rb : gmap string string) : nat :=
  size (filter (λ kv : string * string, kv.2 = k) rb).

(** Every kind's count is the number of users mapped to that kind. *)
Definition accounting (rc : gmap string Z) (rb : gmap string string) : Prop :=
  Forall (λ k, rc !! k = Some (Z.of_nat (reactors k rb))) reactionKeys.

(** The reaction fields are in the form that the normalizers produce. *)
Definition normalizedReactions (rc : gmap string Z) (rb : gmap string string) : Prop :=
  normalizeReactionCounts (Some rc) = rc ∧ normalizeReactedBy (Some rb) = rb.

Definition postAccounting (post : Post) : Prop :=
  normalizedReactions (reactions_count post) (reacted_by post)
  ∧ accounting (reactions_count post) (reacted_by post).

(** The same invariant on a stored record, read the way every reader of
    the record reads it: through the normalizers. *)
Definition docAccounting (data : Doc.t) : Prop :=
  accounting (normalizeReactionCounts (Doc.reactions_count data))
             (normalizeReactedBy (Doc.reacted_by data)).

(** One toggle by one user on the local post: the optimistic step of
    [reactToPost] past its guards on the reaction key and the user. *)
Definition toggleReaction (userId reactionKey : string) (post : Post) : Post :=
  if negb (includes reactionKeys reactionKey) || bool_decide (userId = ""%string)
  then post
  else applyOptimisticReaction (reactionDelta userId reactionKey post) post.

(** A reaction event: the optimistic step on the local copy of a post, or
    the remote step on its stored record. *)
Inductive ToggleStep :=
| OptimisticStep (userId reactionKey : string)
| RemoteStep (userId reactionKey : string).

Definition stepToggle (st : Post * Doc.t) (e : ToggleStep) : Post * Doc.t :=
  match e with
  | OptimisticStep u k => (toggleReaction u k st.1, st.2)
  | RemoteStep u k =>
      if negb (includes reactionKeys k) || bool_decide (u = ""%string) then st
      else (st.1, reactionTransaction u k st.2)
  end.

(** ** Example data *)

Definition exampleNow : Z := 1700000000000.

(** A stored record whose count for [love] is 2 while a single user is
    recorded as having reacted. *)
Definition inconsistentDoc : Doc.t :=
  Doc.mk "author" (TsFirestore (exampleNow - 3600000)) "hello" [] "" 2
    (Some {[ "love"%string := 2 ]}) (Some {[ "u1"%string := "love"%string ]})
    0 None 0 [] (Qc_of_Z 0) "text" "active".

(** A stored record with one [love] by [u1] and one [thumbs_up] by [u3]. *)
Definition consistentDoc : Doc.t :=
  Doc.mk "author" (TsFirestore (exampleNow - 3600000)) "hello" [] "" 2
    (Some {[ "love"%string := 1; "thumbs_up"%string := 1 ]})
    (Some {[ "u1"%string := "love"%string; "u3"%string := "thumbs_up"%string ]})
    0 None 0 [] (Q2Qc (2 # 10)) "text" "active".

Definition exampleSteps : list ToggleStep :=
  [OptimisticStep "u2" "laugh"; RemoteStep "u2" "laugh";
   OptimisticStep "u1" "love"; RemoteStep "u3" "annoyed"].

(** The local copy of [consistentDoc]. *)
Definition consistentPost : Post := normalizePost "p1" consistentDoc.

(** A record from before reactions existed: one like, by [u2], no
    reaction fields, no stored engagement total and no stored score. *)
Definition legacyDoc : Doc.t :=
  Doc.mk "author" (TsFirestore (exampleNow - 3600000)) "hello" [] "" 0
    None None 1 (Some ["u2"%string]) 0 [] (Qc_of_Z 0) "text" "active".

Definition legacyPost : Post := normalizePost "p7" legacyDoc.

Definition sessionOf (userId : string) : Session :=
  {| currentUserId := userId; suspended := false; isAdmin := false;
     remoteEnabled := true; pendingReactions := ∅; pendingComments := ∅ |}.

(** ** Provenance of merged entries *)

Definition flagOf (source : Source) (post : Post) : bool :=
  match source with
  | SrcMine => _fromMine post
  | SrcFollowing => _fromFollowing post
  | SrcCampus => _fromCampus post
  | SrcGlobal => _fromGlobal post
  end.

(** The rows of all buckets with their source, in the order in which
    [rankPosts] feeds them to [addToMerged]. *)
Definition bucketRows (bucketState : BucketState) : list (Post * Source) :=
  map (λ row, (row, SrcMine)) (mine bucketState)
  ++ map (λ row, (row, SrcCampus)) (campus bucketState)
  ++ map (λ row, (row, SrcFollowing)) (concat (following bucketState))
  ++ map (λ row, (row, SrcGlobal)) (global bucketState).

(** Whether a snapshot contains a row with the identifier [postId]. *)
Definition inBucket (rows : list Post) (postId : string) : bool :=
  bool_decide (postId ∈ map id rows).

(** The boost constants of the buckets that contain [postId], added up. *)
Definition provenanceBoost (bucketState : BucketState) (postId : string) : Z :=
  (if inBucket (mine bucketState) postId then 120 else 0)
  + (if inBucket (concat (following bucketState)) postId then 45 else 0)
  + (if inBucket (campus bucketState) postId then 12 else 0)
  + (if inBucket (global bucketState) postId then 6 else 0).

(** The tie-break that the specification asks of the ranked list: of two
    entries with equal score, the one listed first is not older. *)
Definition tiesNewestFirst (ranked : list Post) : Prop :=
  ∀ (i j : nat) (a b : Post),
    (i < j)%nat → ranked !! i = Some a → ranked !! j = Some b →
    _feedScore a = _feedScore b →
    toMillis (created_at b) ≤ toMillis (created_at a).

Definition rowAt (i u : string) (createdMs engagement : Z) : Post :=
  {| id := i; user_id := u; created_at := TsFirestore createdMs; caption := "";
     tags := []; image_url := ""; engagement_count := engagement;
     reactions_count := createEmptyReactionCounts; reacted_by := ∅;
     comments_count := 0; comments := []; steeze_score := Qc_of_Z 0;
     media_type := "text"; moderated_status := "active"; delivery_status := None;
     _fromMine := false; _fromFollowing := false; _fromCampus := false;
     _fromGlobal := false; _feedScore := Qc_of_Z 0 |}.

(** The viewer's own post, 19 hours old, delivered by the own-posts
    subscription and by the campus subscription. *)
Definition ownCampusBuckets : BucketState :=
  let P := rowAt "p" "me" (exampleNow - 19 * 3600000) 0 in
  mkBuckets [P] [P] [] [].

(** A campus post four hours old, also seen by the global subscription,
    and a post of another campus one hour old, seen by the global
    subscription only. *)
Definition tieBuckets : BucketState :=
  let A := rowAt "a" "x" (exampleNow - 4 * 3600000) 0 in
  let B := rowAt "b" "y" (exampleNow - 1 * 3600000) 0 in
  mkBuckets [A] [] [] [B; A].

(** A feed with a fresh post and one that is 25 hours old. *)
Definition staleBuckets : BucketState :=
  let fresh := rowAt "new" "x" (exampleNow - 3600000) 0 in
  let stale := rowAt "old" "me" (exampleNow - 25 * 3600000) 50 in
  mkBuckets [fresh; stale] [stale] [] [fresh; stale].

(** The state of [merged] after a sequence of [addToMerged] calls: the
    identifiers are distinct, every row that was added has an entry, and
    an entry carries the flag of a source exactly when a row with its
    identifier was added from that source. *)
Definition mergeInvariant (adds : list (Post * Source)) (merged : list Post) : Prop :=
  NoDup (map id merged)
  ∧ (∀ row src, (row, src) ∈ adds → id row ∈ map id merged)
  ∧ (∀ p src, p ∈ merged →
       flagOf src p = true ↔ ∃ row, (row, src) ∈ adds ∧ id row = id p).

(** [a] is listed before [b] only if its score is not smaller. *)
Definition scoreOrder (a b : Post) : Prop := (_feedScore b ≤ _feedScore a)%Qc.

(** The entries with the score [s], in list order. *)
Definition withScore (s : Qc) (posts : list Post) : list Post :=
  List.filter (λ post, bool_decide (_feedScore post = s)) posts.


(** A stored reflection (image) post and its local copy. *)
Definition imageDoc : Doc.t :=
  Doc.mk "author" (TsFirestore (exampleNow - 7200000)) "sunset" [] "https://img/1" 0
    (Some ∅) (Some ∅) 0 None 0 [] (Qc_of_Z 0) "image" "active".

Definition imagePost : Post := normalizePost "r1" imageDoc.

Definition exampleAuthor : CommentAuthor := mkAuthor "Ada" "@ada" "".

(** A caption-only draft and a draft with a selected image. *)
Definition textDraft : Draft := mkDraft "hello #campus" "text" false "" ["campus"%string].
Definition mediaDraft : Draft :=
  mkDraft "look" "reflection" true "blob:preview" [].

(** The post of the reaction scenario: two [love], by [u1] and [u2], and
    one [thumbs_up], by [u3]. *)
Definition scenarioPost : Post :=
  normalizePost "s1"
    (Doc.mk "author" (TsFirestore (exampleNow - 3600000)) "hi" [] "" 3
       (Some {[ "love"%string := 2; "thumbs_up"%string := 1 ]})
       (Some {[ "u1"%string := "love"%string; "u2"%string := "love"%string;
                "u3"%string := "thumbs_up"%string ]})
       0 None 0 [] (Q2Qc (3 # 10)) "text" "active").

(** ** Further feed selections *)

Definition reflectPosts (visible : list Post) : list Post :=
  List.filter (λ post, negb (bool_decide (orS (media_type post) "text" = "text"%string)))
    visible.

(** The effect that re-fits the visible count when the length of the
    filtered list changes. *)
Definition syncVisibleCount (moodFiltered : list Post) (prev : nat) : nat :=
  if (length moodFiltered =? 0)%nat then 0%nat
  else
    let baseline := if (0 <? prev)%nat then prev else feedPageSize in
    Nat.min (length moodFiltered) (Nat.max feedPageSize baseline).

(** ** Chunks *)

(** The loop of [splitIntoChunks]: [index] advances by [size] while it is
    below the length.  [fuel] bounds the number of iterations; with a
    positive [size] the loop body runs at most [length items] times.  (With
    [size = 0] the JS loop does not terminate.) *)
Fixpoint chunksFrom (fuel : nat) (items : list string) (size index : nat)
    : list (list string) :=
  match fuel with
  | O => []
  | S fuel' =>
      if (index <? length items)%nat
      then take size (drop index items) :: chunksFrom fuel' items size (index + size)
      else []
  end.

Definition splitIntoChunks (items : list string) (size : nat) : list (list string) :=
  chunksFrom (length items) items size 0.

(** The followee shards of the feed subscription:
    [followingIds.filter((id) => id && id !== currentUserId).slice(0, 40)]
    cut into chunks of 10. *)
Definition followedIds (currentUserId : string) (followingIds : list string)
    : list string :=
  take 40
    (List.filter
       (λ i, negb (bool_decide (i = ""%string)) && negb (bool_decide (i = currentUserId)))
       followingIds).

Definition followedShards (currentUserId : string) (followingIds : list string)
    : list (list string) :=
  splitIntoChunks (followedIds currentUserId followingIds) 10.

(** [Array.from(new Set(xs))]: first occurrences, in order. *)
Definition uniqueInOrder (xs : list string) : list string :=
  foldl (λ seen x, if bool_decide (x ∈ seen) then seen else seen ++ [x]) [] xs.

(** The author ids whose profiles are looked up for the visible posts,
    in chunks of 10. *)
Definition profileLookupChunks (visible : list Post) : list (list string) :=
  let userIds :=
    take 200
      (uniqueInOrder
         (List.filter (λ u, negb (bool_decide (u = ""%string))) (map user_id visible))) in
  splitIntoChunks userIds 10.

(** ** Aliases *)

(** [hash = (hash * 31 + charCode) >>> 0] over the code units of the
    text; strings here are sequences of 8-bit code units. *)
Definition hashText (value : string) : Z :=
  foldl (λ hash c, (hash * 31 + Z.of_nat (nat_of_ascii c)) mod 2 ^ 32) 0
    (list_ascii_of_string value).

Definition roomAliasFirst : list string :=
  ["Brain"; "Pixel"; "Ghost"; "Velvet"; "Cosmic"; "Sunny"; "Midnight"; "Nova";
   "Chill"; "Bold"; "Lucky"; "Quiet"]%string.

Definition roomAliasSecond : list string :=
  ["Deer"; "Panda"; "Viper"; "Otter"; "Raven"; "Koala"; "Lynx"; "Finch"; "Tiger";
   "Cobra"; "Shark"; "Fox"]%string.

(** [list[i]], with [undefined] rendered as the text that a template
    literal would print. *)
Definition pick (l : list string) (i : Z) : string :=
  default "undefined"%string (l !! Z.to_nat i).

Definition generateRoomAlias (roomId userId : string) : string :=
  let seed := orS roomId "room" +:+ ":" +:+ orS userId "anon" in
  let hash := hashText seed in
  let first := pick roomAliasFirst (hash mod Z.of_nat (length roomAliasFirst)) in
  let second :=
    pick roomAliasSecond
      ((hash / Z.of_nat (length roomAliasFirst)) mod Z.of_nat (length roomAliasSecond)) in
  first +:+ " " +:+ second.

(** ** Deleting a post *)

Definition canDeletePost (s : Session) (post : Post) : bool :=
  if bool_decide (currentUserId s = ""%string) then false
  else isAdmin s || bool_decide (user_id post = currentUserId s).

(** [deletePost]: the optimistic removal, then the outcome of the remote
    delete; the [catch] branch puts back the list captured before the
    removal. *)
Definition deletePost (s : Session) (posts : list Post) (postId : string)
    (outcome : RemoteOutcome) : list Post :=
  match findPost postId posts with
  | None => posts
  | Some target =>
      if negb (canDeletePost s target) then posts else
      let previousPosts := posts in
      let removed :=
        List.filter (λ post, negb (bool_decide (id post = postId))) posts in
      if negb (remoteEnabled s) then removed else
      match outcome with
      | RemoteOk => removed
      | RemoteFailed => previousPosts
      end
  end.

(** ** Score tiers *)

Inductive SteezeTier := Standout | Polished | HeatingUp | Fresh.

(** [getSteezeTier]; the labels shown are "Standout", "Polished",
    "Heating Up" and "Fresh", each with its emoji. *)
Definition getSteezeTier (score : Qc) : SteezeTier :=
  if decide (Qc_of_Z 6 ≤ score)%Qc then Standout
  else if decide (Qc_of_Z 3 ≤ score)%Qc then Polished
  else if decide (Qc_of_Z 1 ≤ score)%Qc then HeatingUp
  else Fresh.

(** ** Room posts *)

(** [postToRoom] stamps a post with
    [Date.now() + Number(post_ttl_minutes || 60) * 60 * 1000]. *)
Definition roomPostExpiry (nowMs postTtlMinutes : Z) : Z :=
  nowMs + orZ postTtlMinutes 60 * 60 * 1000.

(** The filter of the room snapshot: [!expiresAt || expiresAt > Date.now()]. *)
Definition roomPostAlive (nowMs : Z) (expires_at : Timestamp) : bool :=
  let expiresAt := toMillis expires_at in
  (expiresAt =? 0) || (nowMs <? expiresAt).

(** ** User-facing error messages *)

(** [hay.includes(needle)] *)
Fixpoint includesText (needle hay : string) : bool :=
  String.prefix needle hay
  || match hay with
     | EmptyString => false
     | String _ rest => includesText needle rest
     end.

(** A picked file: its MIME type and its size in bytes. *)
Record MediaFile := mkFile {
  fileType : string;
  fileSize : Z;
}.

Definition maxImageBytes : Z := 10 * 1024 * 1024.
Definition maxVideoBytes : Z := 60 * 1024 * 1024.

(** [Math.round(maxBytes / (1024 * 1024))]; the limits are whole
    numbers of megabytes. *)
Definition megabytes (maxBytes : Z) : Z := maxBytes / (1024 * 1024).

(** [validateMediaFile]: the message to show, empty when the file is
    accepted. *)
Definition validateMediaFile (file : option MediaFile) : string :=
  match file with
  | None => "Select a file to upload."
  | Some f =>
      let isImage := String.prefix "image/" (fileType f) in
      if negb isImage then "Only images are allowed."
      else if maxImageBytes <? fileSize f
           then "File too large. Max " +:+ pretty (megabytes maxImageBytes) +:+ "MB."
           else ""
  end.

(** [validateFile] of the upload library: the message of the error it
    throws, or [None] when it returns. *)
Definition validateFile (file : option MediaFile) : option string :=
  match file with
  | None => Some "No file selected."%string
  | Some f =>
      let isVideo := String.prefix "video/" (fileType f) in
      let isImage := String.prefix "image/" (fileType f) in
      if negb isVideo && negb isImage then Some "Only images and videos are allowed."%string
      else
        let maxBytes := if isVideo then maxVideoBytes else maxImageBytes in
        if maxBytes <? fileSize f
        then Some ("File is too large. Max " +:+ pretty (megabytes maxBytes) +:+ "MB.")
        else None
  end.

Definition safeUserMessages : list string :=
  ["Select a file to upload.";
   "Only images are allowed.";
   "Only images and videos are allowed.";
   "No file selected.";
   "File too large.";
   "File is too large.";
   "Write something before publishing.";
   "Add an image for reflection post.";
   "You must be logged in to upload media.";
   "Firebase is not configured.";
   "Firebase is not configured yet."]%string.

(** The parts of a thrown error that the message builder reads; an absent
    part is the empty string. *)
Record ErrorInfo := mkError {
  errMessage : string;
  errCode : string;
  errName : string;
}.

Definition fallbackGeneral : string := "Something went wrong. Please try again.".
Definition fallbackAuth : string := "Could not sign in. Please try again.".
Definition fallbackUpload : string := "Media upload failed. Please try again.".

(** [fallbackByContext[context]], [None] for a context that is not a key. *)
Definition fallbackByContext (context : string) : option string :=
  if bool_decide (context = "auth"%string) then Some fallbackAuth
  else if bool_decide (context = "upload"%string) then Some fallbackUpload
  else if bool_decide (context = "publish"%string)
       then Some "Could not publish post. Please try again."%string
  else if bool_decide (context = "reaction"%string)
       then Some "Could not save reaction."%string
  else if bool_decide (context = "comment"%string)
       then Some "Could not add comment."%string
  else if bool_decide (context = "profile"%string)
       then Some "Could not update profile."%string
  else if bool_decide (context = "settings"%string)
       then Some "Could not save settings."%string
  else if bool_decide (context = "general"%string) then Some fallbackGeneral
  else None.

(** The [switch] on [auth/...] codes. *)
Definition authMessage (code : string) : string :=
  if bool_decide (code = "auth/email-already-in-use"%string)
  then "This email is already in use."
  else if bool_decide (code = "auth/invalid-email"%string)
  then "Enter a valid email address."
  else if bool_decide (code = "auth/weak-password"%string)
  then "Password should be at least 6 characters."
  else if bool_decide (code = "auth/user-not-found"%string)
          || bool_decide (code = "auth/wrong-password"%string)
  then "Email or password is incorrect."
  else if bool_decide (code = "auth/popup-closed-by-user"%string)
  then "Sign-in popup was closed."
  else if bool_decide (code = "auth/network-request-failed"%string)
  then "Network error. Check your connection."
  else if bool_decide (code = "auth/too-many-requests"%string)
  then "Too many attempts. Try again later."
  else if bool_decide (code = "auth/operation-not-allowed"%string)
  then "This sign-in method isn't enabled yet."
  else if bool_decide (code = "auth/invalid-credential"%string)
  then "Invalid credentials. Try again."
  else if bool_decide (code = "auth/user-disabled"%string)
  then "Your account has been disabled."
  else fallbackAuth.

Definition getFriendlyErrorMessage (error : ErrorInfo) (context : string) : string :=
  let rawMessage := trim (errMessage error) in
  let code := toLowerCase (trim (errCode error)) in
  let message :=
    orS rawMessage (orS (default ""%string (fallbackByContext context)) fallbackGeneral) in
  let lowerMessage := toLowerCase message in
  if existsb (λ text, String.prefix text message) safeUserMessages then message
  else if String.prefix "auth/" code then authMessage code
  else if bool_decide (code = "permission-denied"%string)
          || includesText "permission" lowerMessage
          || includesText "insufficient" lowerMessage
  then "You do not have permission to do that."
  else if bool_decide (code = "unauthenticated"%string)
  then "Please log in again and try."
  else if bool_decide (code = "already-exists"%string)
          || includesText "already exists" lowerMessage
  then "That already exists."
  else if bool_decide (code = "resource-exhausted"%string)
          || includesText "quota" lowerMessage
  then "Service is busy. Try again later."
  else if bool_decide (code = "unavailable"%string)
          || includesText "unavailable" lowerMessage
  then "Service is temporarily unavailable."
  else if bool_decide (code = "deadline-exceeded"%string)
          || includesText "timeout" lowerMessage
  then "Request timed out. Try again."
  else if includesText "network" lowerMessage
          || bool_decide (errName error = "AbortError"%string)
  then "Network error. Check your connection."
  else if includesText "app check" lowerMessage
  then "Uploads are unavailable right now."
  else if includesText "cloudinary" lowerMessage
          || includesText "upload signature" lowerMessage
          || includesText "sign upload" lowerMessage
          || includesText "signature endpoint" lowerMessage
          || includesText "upload failed" lowerMessage
  then fallbackUpload
  else if includesText "firebase" lowerMessage || includesText "projects/" lowerMessage
  then fallbackGeneral
  else if includesText "http://" message || includesText "https://" message
  then fallbackGeneral
  else orS (default ""%string (fallbackByContext context)) fallbackGeneral.

Definition getFeedSnapshotMessage (error : ErrorInfo) : string :=
  let raw := toLowerCase (errMessage error) in
  if includesText "index" raw
  then "Feed index missing. Deploy Firestore indexes then reload."
  else getFriendlyErrorMessage error "general".

(** The texts that the message builder can produce on its own. *)
Definition friendlyTexts : list string :=
  ["This email is already in use.";
   "Enter a valid email address.";
   "Password should be at least 6 characters.";
   "Email or password is incorrect.";
   "Sign-in popup was closed.";
   "Network error. Check your connection.";
   "Too many attempts. Try again later.";
   "This sign-in method isn't enabled yet.";
   "Invalid credentials. Try again.";
   "Your account has been disabled.";
   "You do not have permission to do that.";
   "Please log in again and try.";
   "That already exists.";
   "Service is busy. Try again later.";
   "Service is temporarily unavailable.";
   "Request timed out. Try again.";
   "Uploads are unavailable right now.";
   "Could not sign in. Please try again.";
   "Media upload failed. Please try again.";
   "Could not publish post. Please try again.";
   "Could not save reaction.";
   "Could not add comment.";
   "Could not update profile.";
   "Could not save settings.";
   "Something went wrong. Please try again."]%string.

(** ** Reading the merge *)

(** The fields that [normalizePost] sets on every row, whatever the stored
    record holds: engagement total, reaction counts and map, comment count
    and comments, score, media type, tags and moderation status. *)
Definition normalizedFields (post : Post)
    : Z * gmap string Z * gmap string string * Z * list Comment * Qc
      * string * list string * string :=
  (engagement_count post, reactions_count post, reacted_by post,
   comments_count post, comments post, steeze_score post,
   media_type post, tags post, moderated_status post).

(** [p] carries, in the fields that every row has, the values of the last
    row with its identifier in [adds]. *)
Definition lastWriter (adds : list (Post * Source)) (p : Post) : Prop :=
  ∃ before row src after,
    adds = before ++ (row, src) :: after
    ∧ id row = id p
    ∧ normalizedFields p = normalizedFields row
    ∧ Forall (λ a : Post * Source, id a.1 ≠ id p) after.

(** The merged posts by [author] that the viewer has reacted to. *)
Definition reactedPostsBy (currentUserId author : string) (merged : list Post)
    : list Post :=
  List.filter
    (λ post, truthyS (reacted_by post !! currentUserId)
             && bool_decide (user_id post = author)) merged.

(** Two snapshots that disagree on the engagement total of post ["p"]: the
    own-posts snapshot says 1, the campus snapshot says 4. *)
Definition conflictingBuckets : BucketState :=
  let mineRow := rowAt "p" "me" (exampleNow - 7200000) 1 in
  let campusRow := rowAt "p" "me" (exampleNow - 7200000) 4 in
  mkBuckets [campusRow] [mineRow] [] [].

(** A stored reflection post that already holds 150 comments. *)
Definition crowdedDoc : Doc.t :=
  Doc.mk "author" (TsFirestore (exampleNow - 7200000)) "sunset" [] "https://img/1" 0
    (Some ∅) (Some ∅) 0 None 150
    (replicate 150 (mkComment "c0" "u0" "first" "Bo" "@bo" "" (exampleNow - 1000)))
    (Qc_of_Z 0) "image" "active".

(** A feed of three posts, a reflection among them. *)
Definition smallFeed : list Post :=
  [rowAt "a" "me" (exampleNow - 1000) 0; imagePost; rowAt "b" "z" (exampleNow - 3000) 0].

(** A file that is an image of 20 MB. *)
Definition hugeImage : MediaFile := mkFile "image/png" 20000000.


(** ** The ranker over an arbitrary score *)

(** The array that [rankPosts] hands to [sort] when the score of a merged
    entry is computed by [score]: the merged entries inside the window, in
    merged order, each stored with its score. *)
Definition scoredWith (score : Post → Qc) (nowMs : Z) (bucketState : BucketState)
    : list Post :=
  map (λ post, withFeedScore post (score post))
    (List.filter (inWindow nowMs) (mergeBuckets bucketState)).

(** [rankPosts] with the score computation left open.  The sort compares
    the stored [_feedScore] only, so what holds of [rankWith] for every
    [score] holds of the ranker however the score arithmetic rounds. *)
Definition rankWith (score : Post → Qc) (nowMs : Z) (bucketState : BucketState)
    : list Post :=
  sortByScore (scoredWith score nowMs bucketState).

(** The score that [rankPosts] gives to a merged entry. *)
Definition rankScore (nowMs : Z) (styleTags : list string) (currentUserId : string)
    (bucketState : BucketState) : Post → Qc :=
  let styleSet : gset string := list_to_set (map toLowerCase styleTags) in
  let merged := mergeBuckets bucketState in
  let tagWeights := interactionTagWeights currentUserId merged in
  let authorWeights := interactionAuthorWeights currentUserId merged in
  feedScore nowMs styleSet tagWeights authorWeights.

(** The identifiers of the bucket rows in the order in which the merge
    first meets them: own posts, campus, the followee shards, global, each
    snapshot in its own order, every identifier at its first occurrence. *)
Definition firstMetIds (bucketState : BucketState) : list string :=
  uniqueInOrder (map (λ a : Post * Source, id a.1) (bucketRows bucketState)).
(** * Properties *)

#[local] Set Warnings "-clear-no-such-hyp".

(** ** Normalized reaction fields *)

Lemma elem_of_reactionKeys (k : string) :
  k ∈ reactionKeys ↔
  k = "annoyed"%string ∨ k = "love"%string ∨ k = "surprised"%string
  ∨ k = "thumbs_up"%string ∨ k = "laugh"%string.
Proof. unfold reactionKeys. rewrite !elem_of_cons, elem_of_nil. tauto. Qed.

Lemma reactionKeys_nonempty (k : string) : k ∈ reactionKeys → k ≠ ""%string.
Proof. rewrite elem_of_reactionKeys. intros H ->. destruct H as [?|[?|[?|[?|?]]]]; discriminate. Qed.

Lemma foldl_insert_lookup (f : string → Z) (l : list string) (m0 : gmap string Z)
    (k : string) :
  foldl (λ counts key, <[key := f key]> counts) m0 l !! k
  = if decide (k ∈ l) then Some (f k) else m0 !! k.
Proof.
  revert m0. induction l as [|a l IH]; intros m0; cbn [foldl].
  - destruct (decide (k ∈ [])) as [H|H]; [by apply elem_of_nil in H | done].
  - rewrite IH. repeat case_decide; try done.
    + exfalso. rewrite elem_of_cons in *. tauto.
    + destruct (decide (k = a)) as [->|Hne].
      * by rewrite lookup_insert_eq.
      * exfalso. rewrite elem_of_cons in *. tauto.
    + rewrite lookup_insert_ne; [done|]. intros ->. rewrite elem_of_cons in *. tauto.
Qed.

Lemma createEmptyReactionCounts_lookup (k : string) :
  createEmptyReactionCounts !! k = if decide (k ∈ reactionKeys) then Some 0 else None.
Proof.
  unfold createEmptyReactionCounts.
  rewrite (foldl_insert_lookup (λ _, 0)). by rewrite lookup_empty.
Qed.

Lemma normalizeReactionCounts_lookup (v : gmap string Z) (k : string) :
  normalizeReactionCounts (Some v) !! k
  = if decide (k ∈ reactionKeys) then Some (default 0 (v !! k)) else None.
Proof.
  unfold normalizeReactionCounts.
  rewrite (foldl_insert_lookup (λ key, default 0 (v !! key))).
  rewrite createEmptyReactionCounts_lookup. by destruct (decide (k ∈ reactionKeys)).
Qed.

Lemma normalizeReactionCounts_key (v : gmap string Z) (k : string) :
  k ∈ reactionKeys → normalizeReactionCounts (Some v) !! k = Some (default 0 (v !! k)).
Proof. intros Hk. by rewrite normalizeReactionCounts_lookup, decide_True. Qed.

Lemma normalizeReactionCounts_idem (v : option (gmap string Z)) :
  normalizeReactionCounts (Some (normalizeReactionCounts v)) = normalizeReactionCounts v.
Proof.
  apply map_eq; intros k. rewrite normalizeReactionCounts_lookup.
  destruct v as [v|].
  - rewrite normalizeReactionCounts_lookup. by destruct (decide (k ∈ reactionKeys)).
  - change (normalizeReactionCounts None) with createEmptyReactionCounts.
    rewrite createEmptyReactionCounts_lookup. by destruct (decide (k ∈ reactionKeys)).
Qed.

Lemma computeReactionTotal_eq (rc : gmap string Z) :
  computeReactionTotal (Some rc)
  = countOf rc "annoyed" + countOf rc "love" + countOf rc "surprised"
    + countOf rc "thumbs_up" + countOf rc "laugh".
Proof.
  unfold computeReactionTotal, countOf. cbn [foldl reactionKeys].
  rewrite !normalizeReactionCounts_key by (apply elem_of_reactionKeys; tauto).
  simpl. lia.
Qed.

Lemma normalizeReactedBy_lookup (v : gmap string string) (u k : string) :
  normalizeReactedBy (Some v) !! u = Some k
  ↔ v !! u = Some k ∧ u ≠ ""%string ∧ k ∈ reactionKeys.
Proof.
  unfold normalizeReactedBy. revert u k.
  apply (map_fold_weak_ind (λ r (m : gmap string string), ∀ u k,
    r !! u = Some k ↔ m !! u = Some k ∧ u ≠ ""%string ∧ k ∈ reactionKeys)).
  - intros u k. rewrite !lookup_empty. naive_solver.
  - intros i x m r Hi IH u k. unfold includes.
    destruct (decide (i = ""%string)) as [->|Hi0].
    + rewrite bool_decide_eq_true_2 by done. simpl. rewrite IH.
      rewrite lookup_insert_Some. naive_solver.
    + rewrite bool_decide_eq_false_2 by done. simpl.
      destruct (decide (x ∈ reactionKeys)) as [Hx|Hx].
      * rewrite bool_decide_eq_true_2 by done. simpl.
        rewrite !lookup_insert_Some, IH. naive_solver.
      * rewrite bool_decide_eq_false_2 by done. simpl.
        rewrite IH, lookup_insert_Some. naive_solver.
Qed.

(** ** Counting the users of a reaction kind *)

Lemma reactors_empty (k : string) : reactors k ∅ = 0%nat.
Proof. unfold reactors. by rewrite map_filter_empty, map_size_empty. Qed.

Lemma reactors_filter_lookup (k : string) (rb : gmap string string) (u : string) :
  filter (λ kv : string * string, kv.2 = k) rb !! u
  = if decide (rb !! u = Some k) then Some k else None.
Proof.
  case_decide as H.
  - apply map_lookup_filter_Some. by split.
  - apply map_lookup_filter_None. destruct (rb !! u) as [y|] eqn:Hy; [right|by left].
    intros x [= <-]. simpl. congruence.
Qed.

Lemma reactors_pos (k : string) (rb : gmap string string) (u : string) :
  rb !! u = Some k → (0 < reactors k rb)%nat.
Proof.
  intros Hu. unfold reactors.
  assert (filter (λ kv : string * string, kv.2 = k) rb ≠ ∅) as Hne.
  { intros Hemp. pose proof (reactors_filter_lookup k rb u) as H.
    rewrite Hemp, lookup_empty, decide_True in H by done. discriminate. }
  apply map_size_non_empty_iff in Hne. lia.
Qed.

Lemma reactors_delete (k : string) (rb : gmap string string) (u : string) :
  reactors k (delete u rb)
  = (reactors k rb - (if decide (rb !! u = Some k) then 1 else 0))%nat.
Proof.
  unfold reactors. rewrite map_filter_delete, map_size_delete.
  rewrite reactors_filter_lookup. case_decide; simpl; lia.
Qed.

Lemma reactors_insert (k : string) (rb : gmap string string) (u x : string) :
  reactors k (<[u := x]> rb)
  = (reactors k (delete u rb) + (if decide (x = k) then 1 else 0))%nat.
Proof.
  rewrite <- (insert_delete_eq rb). unfold reactors at 1.
  rewrite map_filter_insert. simpl. case_decide as Hx.
  - rewrite map_size_insert_None; [fold (reactors k (delete u rb)); lia|].
    rewrite reactors_filter_lookup, lookup_delete_eq. by case_decide.
  - rewrite delete_delete_eq. fold (reactors k (delete u rb)). lia.
Qed.

Lemma reactors_sum (rb : gmap string string) :
  (∀ u k, rb !! u = Some k → k ∈ reactionKeys) →
  (reactors "annoyed" rb + reactors "love" rb + reactors "surprised" rb
   + reactors "thumbs_up" rb + reactors "laugh" rb)%nat = size rb.
Proof.
  induction rb as [|u x rb Hu IH] using map_ind; intros Hval.
  - by rewrite !reactors_empty, map_size_empty.
  - rewrite map_size_insert_None by done. rewrite !reactors_insert.
    rewrite !delete_id by done.
    assert (x ∈ reactionKeys) as Hx by (apply (Hval u); apply lookup_insert_eq).
    rewrite <- IH.
    2:{ intros u' k' Hk'. apply (Hval u'). rewrite lookup_insert_ne; [done|].
        intros <-. congruence. }
    apply elem_of_reactionKeys in Hx.
    destruct Hx as [-> | [-> | [-> | [-> | ->]]]]; repeat case_decide; try discriminate; try congruence; lia.
Qed.

(** ** The toggle preserves the accounting invariant *)

Lemma normalizeReactedBy_fixed (rb : gmap string string) :
  normalizeReactedBy (Some rb) = rb
  ↔ ∀ u k, rb !! u = Some k → u ≠ ""%string ∧ k ∈ reactionKeys.
Proof.
  split.
  - intros Hfix u k Hu. rewrite <- Hfix in Hu.
    apply normalizeReactedBy_lookup in Hu. tauto.
  - intros Hval. apply map_eq; intros u. apply option_eq; intros k.
    rewrite normalizeReactedBy_lookup. split; [tauto|].
    intros Hu. split; [done|]. by apply Hval.
Qed.

Lemma normalizeReactedBy_idem (v : option (gmap string string)) :
  normalizeReactedBy (Some (normalizeReactedBy v)) = normalizeReactedBy v.
Proof.
  apply normalizeReactedBy_fixed. intros u k Hu. destruct v as [v|].
  - apply normalizeReactedBy_lookup in Hu. tauto.
  - change (normalizeReactedBy None) with (∅ : gmap string string) in Hu.
    by rewrite lookup_empty in Hu.
Qed.

Lemma normalizeReactionCounts_fixed (rc : gmap string Z) :
  normalizeReactionCounts (Some rc) = rc
  ↔ ∀ k, is_Some (rc !! k) ↔ k ∈ reactionKeys.
Proof.
  split.
  - intros Hfix k. rewrite <- Hfix, normalizeReactionCounts_lookup.
    case_decide; split; try done; intros H'; by destruct H'.
  - intros Hdom. apply map_eq; intros k. rewrite normalizeReactionCounts_lookup.
    case_decide as Hk.
    + apply Hdom in Hk. destruct Hk as [n ->]. done.
    + destruct (rc !! k) as [n|] eqn:Hn; [|done].
      exfalso. apply Hk, Hdom. by exists n.
Qed.

Lemma currentReactionOf_lookup (rb : gmap string string) (u : string) :
  normalizeReactedBy (Some rb) = rb → currentReactionOf rb u = rb !! u.
Proof.
  intros Hfix. unfold currentReactionOf. destruct (rb !! u) as [k|] eqn:Hu; [|done].
  apply (proj1 (normalizeReactedBy_fixed rb) Hfix) in Hu as [_ Hk].
  apply reactionKeys_nonempty in Hk. by rewrite bool_decide_eq_false_2.
Qed.

Lemma accounting_lookup (rc : gmap string Z) (rb : gmap string string) (k : string) :
  accounting rc rb → k ∈ reactionKeys → rc !! k = Some (Z.of_nat (reactors k rb)).
Proof. unfold accounting. rewrite Forall_forall. intros H Hk. by apply H. Qed.

Ltac count_cases :=
  rewrite ?lookup_insert_eq; cbv [Datatypes.id]; f_equal; repeat case_decide;
  simplify_eq; lia.

Lemma toggle_core (rc : gmap string Z) (rb : gmap string string) (u key : string) :
  key ∈ reactionKeys → u ≠ ""%string →
  normalizedReactions rc rb → accounting rc rb →
  let cur := currentReactionOf rb u in
  let removing := bool_decide (cur = Some key) in
  let rc' := incrementNext (decrementCurrent rc cur) (if removing then None else Some key) in
  let rb' := if removing then delete u rb else <[u := key]> rb in
  normalizedReactions rc' rb' ∧ accounting rc' rb'.
Proof.
  intros Hkey Hu [Hrc Hrb] Hacc. cbv zeta.
  rewrite (currentReactionOf_lookup rb u Hrb).
  pose proof (proj1 (normalizeReactedBy_fixed rb) Hrb) as Hval.
  pose proof (proj1 (normalizeReactionCounts_fixed rc) Hrc) as Hdom.
  pose proof (accounting_lookup rc rb key Hacc Hkey) as Hkeycount.
  destruct (rb !! u) as [c|] eqn:Hcur.
  - (* the user holds a reaction [c] *)
    destruct (Hval u c Hcur) as [_ Hc].
    pose proof (accounting_lookup rc rb c Hacc Hc) as Hcount.
    pose proof (reactors_pos c rb u Hcur) as Hpos.
    unfold decrementCurrent. rewrite Hcount.
    destruct (0 <? Z.of_nat (reactors c rb)) eqn:Hlt; [|apply Z.ltb_ge in Hlt; lia].
    destruct (decide (c = key)) as [->|Hne].
    + rewrite bool_decide_eq_true_2 by done. cbn [incrementNext].
      split; [split|].
      * apply normalizeReactionCounts_fixed. intros k. rewrite <- Hdom.
        destruct (decide (k = key)) as [->|?].
        -- rewrite lookup_insert_eq, Hcount. split; eauto.
        -- by rewrite lookup_insert_ne.
      * apply normalizeReactedBy_fixed. intros u' k' Hk'.
        apply lookup_delete_Some in Hk' as [_ Hk']. by apply Hval.
      * apply Forall_forall. intros k Hk. rewrite reactors_delete, Hcur.
        pose proof (accounting_lookup rc rb k Hacc Hk) as Hk_count.
        destruct (decide (k = key)) as [->|?]; [count_cases|].
        rewrite lookup_insert_ne, Hk_count by done. count_cases.
    + rewrite bool_decide_eq_false_2 by congruence. cbn [incrementNext].
      rewrite lookup_insert_ne, Hkeycount by done. cbn [default].
      split; [split|].
      * apply normalizeReactionCounts_fixed. intros k. rewrite <- Hdom.
        destruct (decide (k = key)) as [->|?].
        -- rewrite lookup_insert_eq, Hkeycount. split; eauto.
        -- rewrite lookup_insert_ne by done.
           destruct (decide (k = c)) as [->|?].
           ++ rewrite lookup_insert_eq, Hcount. split; eauto.
           ++ by rewrite lookup_insert_ne.
      * apply normalizeReactedBy_fixed. intros u' k' Hk'.
        apply lookup_insert_Some in Hk' as [[<- <-]|[_ Hk']]; [done|by apply Hval].
      * apply Forall_forall. intros k Hk. rewrite reactors_insert, reactors_delete, Hcur.
        pose proof (accounting_lookup rc rb k Hacc Hk) as Hk_count.
        destruct (decide (k = key)) as [->|?]; [count_cases|].
        rewrite lookup_insert_ne by done.
        destruct (decide (k = c)) as [->|?]; [count_cases|].
        rewrite lookup_insert_ne, Hk_count by done. count_cases.
  - (* the user holds no reaction *)
    rewrite bool_decide_eq_false_2 by done. cbn [decrementCurrent incrementNext].
    rewrite Hkeycount. cbn [default].
    split; [split|].
    + apply normalizeReactionCounts_fixed. intros k. rewrite <- Hdom.
      destruct (decide (k = key)) as [->|?].
      * rewrite lookup_insert_eq, Hkeycount. split; eauto.
      * by rewrite lookup_insert_ne.
    + apply normalizeReactedBy_fixed. intros u' k' Hk'.
      apply lookup_insert_Some in Hk' as [[<- <-]|[_ Hk']]; [done|by apply Hval].
    + apply Forall_forall. intros k Hk. rewrite reactors_insert, reactors_delete, Hcur.
      pose proof (accounting_lookup rc rb k Hacc Hk) as Hk_count.
      destruct (decide (k = key)) as [->|?]; [count_cases|].
      rewrite lookup_insert_ne, Hk_count by done. count_cases.
Qed.

Lemma accounting_total (rc : gmap string Z) (rb : gmap string string) :
  normalizedReactions rc rb → accounting rc rb →
  computeReactionTotal (Some rc) = Z.of_nat (size rb).
Proof.
  intros [_ Hrb] Hacc. rewrite computeReactionTotal_eq. unfold countOf.
  rewrite !(accounting_lookup rc rb _ Hacc) by (apply elem_of_reactionKeys; tauto).
  cbv [default from_option Datatypes.id]. rewrite <- (reactors_sum rb); [lia|].
  intros u k Hk. by apply (proj1 (normalizeReactedBy_fixed rb) Hrb u k).
Qed.

Lemma reactionDelta_next (u key : string) (post : Post) :
  normalizedReactions (reactions_count post) (reacted_by post) →
  let cur := currentReactionOf (reacted_by post) u in
  let removing := bool_decide (cur = Some key) in
  currentReactedBy (reactionDelta u key post) = reacted_by post
  ∧ currentReactionsCount (reactionDelta u key post) = reactions_count post
  ∧ nextReactedBy (reactionDelta u key post)
    = (if removing then delete u (reacted_by post) else <[u := key]> (reacted_by post))
  ∧ nextReactionsCount (reactionDelta u key post)
    = incrementNext (decrementCurrent (reactions_count post) cur)
        (if removing then None else Some key).
Proof.
  intros [Hrc Hrb].
  cbv beta iota zeta delta [reactionDelta currentReactedBy currentReactionsCount
                              nextReactedBy nextReactionsCount].
  rewrite Hrc, Hrb. done.
Qed.

Lemma toggleReaction_accounting (u key : string) (post : Post) :
  postAccounting post → postAccounting (toggleReaction u key post).
Proof.
  intros [Hnorm Hacc]. unfold toggleReaction, includes.
  destruct (decide (key ∈ reactionKeys)) as [Hkey|Hkey].
  2:{ rewrite bool_decide_eq_false_2 by done. by split. }
  rewrite bool_decide_eq_true_2 by done.
  destruct (decide (u = ""%string)) as [->|Hu].
  { rewrite bool_decide_eq_true_2 by done. by split. }
  rewrite bool_decide_eq_false_2 by done. cbn [negb orb].
  destruct (reactionDelta_next u key post Hnorm) as (_ & _ & Hrb' & Hrc').
  unfold postAccounting, applyOptimisticReaction. cbn [withReactions reactions_count reacted_by].
  rewrite Hrb', Hrc'. by apply toggle_core.
Qed.

Lemma reactionTransaction_accounting (u key : string) (data : Doc.t) :
  key ∈ reactionKeys → u ≠ ""%string →
  docAccounting data → docAccounting (reactionTransaction u key data).
Proof.
  intros Hkey Hu Hacc. unfold docAccounting, reactionTransaction.
  cbn [Doc.reactions_count Doc.reacted_by].
  set (rc := normalizeReactionCounts (Doc.reactions_count data)) in *.
  set (rb := normalizeReactedBy (Doc.reacted_by data)) in *.
  assert (normalizedReactions rc rb) as Hnorm.
  { split; [apply normalizeReactionCounts_idem | apply normalizeReactedBy_idem]. }
  destruct (toggle_core rc rb u key Hkey Hu Hnorm Hacc) as [[Hrc' Hrb'] Hacc'].
  destruct (bool_decide (currentReactionOf rb u = Some key)); cbn [negb] in *;
    by rewrite Hrc', Hrb'.
Qed.

Lemma stepToggle_accounting (st : Post * Doc.t) (e : ToggleStep) :
  postAccounting st.1 → docAccounting st.2 →
  postAccounting (stepToggle st e).1 ∧ docAccounting (stepToggle st e).2.
Proof.
  intros Hp Hd. destruct e as [u k|u k]; cbn [stepToggle].
  - split; [by apply toggleReaction_accounting | done].
  - unfold includes. destruct (decide (k ∈ reactionKeys)) as [Hk|Hk].
    2:{ by rewrite bool_decide_eq_false_2. }
    rewrite bool_decide_eq_true_2 by done.
    destruct (decide (u = ""%string)) as [->|Hu].
    { by rewrite bool_decide_eq_true_2. }
    rewrite bool_decide_eq_false_2 by done. cbn [negb orb fst snd].
    split; [done | by apply reactionTransaction_accounting].
Qed.

Lemma normalizePost_accounting (docId : string) (data : Doc.t) :
  is_Some (Doc.reactions_count data) → is_Some (Doc.reacted_by data) →
  docAccounting data → postAccounting (normalizePost docId data).
Proof.
  intros Hrc Hrb Hacc. unfold postAccounting, normalizePost.
  cbn [reactions_count reacted_by].
  rewrite !bool_decide_eq_true_2 by done. cbn [negb andb].
  split; [split|done].
  - apply normalizeReactionCounts_idem.
  - apply normalizeReactedBy_idem.
Qed.

(** C1, counterexample: [normalizePost] copies the stored counts and the
    stored map independently; on a record whose [love] count is 2 with a
    single reacting user, the post it produces has a count total of 2 and
    one entry in the reacted-by map. *)
Lemma normalizePost_breaks_accounting :
  computeReactionTotal (Some (reactions_count (normalizePost "p1" inconsistentDoc))) = 2
  ∧ size (reacted_by (normalizePost "p1" inconsistentDoc)) = 1%nat
  ∧ computeReactionTotal (Some (reactions_count (normalizePost "p1" inconsistentDoc)))
    ≠ Z.of_nat (size (reacted_by (normalizePost "p1" inconsistentDoc))).
Proof. split; [|split]; [vm_compute; reflexivity .. | vm_compute; discriminate]. Qed.

(** C1 (amended): starting from the post that [normalizePost] produces for
    a stored record that carries both reaction fields and satisfies the
    per-kind accounting invariant, every sequence of reaction toggles
    (optimistic steps on the post, remote steps on the record) keeps the
    invariant on both: each kind's count is the number of users mapped to
    it, hence the sum of the counts equals the number of entries of the
    reacted-by map; and a user is mapped to exactly one kind, one of
    the known reaction kinds. *)
Theorem reaction_accounting_preserved (docId : string) (data : Doc.t)
    (steps : list ToggleStep) :
  is_Some (Doc.reactions_count data) → is_Some (Doc.reacted_by data) →
  docAccounting data →
  let st := foldl stepToggle (normalizePost docId data, data) steps in
  postAccounting st.1 ∧ docAccounting st.2
  ∧ computeReactionTotal (Some (reactions_count st.1))
    = Z.of_nat (size (reacted_by st.1))
  ∧ computeReactionTotal (Some (normalizeReactionCounts (Doc.reactions_count st.2)))
    = Z.of_nat (size (normalizeReactedBy (Doc.reacted_by st.2)))
  ∧ (∀ u k, reacted_by st.1 !! u = Some k →
       k ∈ reactionKeys ∧ ∀ k', reacted_by st.1 !! u = Some k' → k' = k).
Proof.
  intros Hrc Hrb Hacc.
  assert (∀ steps st, postAccounting st.1 → docAccounting st.2 →
            postAccounting (foldl stepToggle st steps).1
            ∧ docAccounting (foldl stepToggle st steps).2) as Hrun.
  { clear. intros steps. induction steps as [|e steps IH]; intros st Hp Hd; [done|].
    cbn [foldl]. destruct (stepToggle_accounting st e Hp Hd). by apply IH. }
  destruct (Hrun steps (normalizePost docId data, data)) as [Hp Hd];
    [by apply normalizePost_accounting | done |].
  cbv zeta. split; [done|]. split; [done|].
  destruct Hp as [Hnorm Hpacc]. split; [by apply accounting_total|].
  split.
  - apply accounting_total; [|done].
    split; [apply normalizeReactionCounts_idem | apply normalizeReactedBy_idem].
  - intros u k Hk. split.
    + destruct Hnorm as [_ Hfix].
      by apply (proj1 (normalizeReactedBy_fixed _) Hfix u k).
    + intros k' Hk'. congruence.
Qed.

Lemma reaction_accounting_preserved_witness :
  is_Some (Doc.reactions_count consistentDoc)
  ∧ is_Some (Doc.reacted_by consistentDoc)
  ∧ docAccounting consistentDoc
  ∧ let st := foldl stepToggle (normalizePost "p1" consistentDoc, consistentDoc)
                exampleSteps in
    computeReactionTotal (Some (reactions_count st.1))
    = Z.of_nat (size (reacted_by st.1)).
Proof.
  assert (docAccounting consistentDoc) as Hacc.
  { unfold docAccounting, accounting. apply (bool_decide_unpack _). vm_compute. exact I. }
  split; [by eexists|]. split; [by eexists|]. split; [exact Hacc|].
  apply (reaction_accounting_preserved "p1" consistentDoc exampleSteps);
    [by eexists | by eexists | exact Hacc].
Defined.

(** ** Toggling twice *)

Lemma toggleReaction_fields (u key : string) (post : Post) :
  key ∈ reactionKeys → u ≠ ""%string →
  normalizedReactions (reactions_count post) (reacted_by post) →
  let removing := bool_decide (reacted_by post !! u = Some key) in
  reacted_by (toggleReaction u key post)
  = (if removing then delete u (reacted_by post) else <[u := key]> (reacted_by post))
  ∧ reactions_count (toggleReaction u key post)
    = incrementNext (decrementCurrent (reactions_count post) (reacted_by post !! u))
        (if removing then None else Some key)
  ∧ engagement_count (toggleReaction u key post)
    = computeReactionTotal (Some (reactions_count (toggleReaction u key post))).
Proof.
  intros Hkey Hu Hnorm. unfold toggleReaction, includes.
  rewrite bool_decide_eq_true_2 by done.
  rewrite (bool_decide_eq_false_2 (u = ""%string)) by done. cbn [negb orb].
  destruct (reactionDelta_next u key post Hnorm) as (_ & _ & Hrb' & Hrc').
  rewrite (currentReactionOf_lookup _ u (proj2 Hnorm)) in Hrb', Hrc'.
  unfold applyOptimisticReaction.
  cbn [withReactions reactions_count reacted_by engagement_count].
  split; [exact Hrb'|]. split; [exact Hrc'|]. reflexivity.
Qed.

Lemma toggleReaction_guard (u key : string) (post : Post) :
  key ∉ reactionKeys ∨ u = ""%string → toggleReaction u key post = post.
Proof.
  intros Hguard. unfold toggleReaction, includes.
  destruct Hguard as [Hkey| ->].
  - by rewrite (bool_decide_eq_false_2 (key ∈ reactionKeys)).
  - rewrite (bool_decide_eq_true_2 (""%string = ""%string)) by done.
    by rewrite orb_true_r.
Qed.

Example toggle_scenario :
  let after := toggleReaction "u1" "love" scenarioPost in
  reacted_by after = {[ "u2"%string := "love"%string; "u3"%string := "thumbs_up"%string ]}
  ∧ countOf (reactions_count after) "love" = 1
  ∧ countOf (reactions_count after) "thumbs_up" = 1
  ∧ engagement_count after = 2.
Proof. repeat split; vm_compute; reflexivity. Qed.

(** C2, counterexample: [u1] holds [love]; toggling [laugh] twice first
    replaces [love] by [laugh] and then removes [laugh], which leaves [u1]
    without any reaction instead of restoring [love]. *)
Lemma toggle_twice_counterexample :
  postAccounting consistentPost
  ∧ engagement_count consistentPost
    = computeReactionTotal (Some (reactions_count consistentPost))
  ∧ reacted_by consistentPost !! "u1"%string = Some "love"%string
  ∧ reacted_by (toggleReaction "u1" "laugh" (toggleReaction "u1" "laugh" consistentPost))
    !! "u1"%string = None
  ∧ reacted_by (toggleReaction "u1" "laugh" (toggleReaction "u1" "laugh" consistentPost))
    ≠ reacted_by consistentPost.
Proof.
  split; [|split; [|split; [|split]]].
  - split; [split; vm_compute; reflexivity|].
    unfold accounting. apply (bool_decide_unpack _). vm_compute. exact I.
  - vm_compute. reflexivity.
  - vm_compute. reflexivity.
  - vm_compute. reflexivity.
  - intros H. apply (f_equal (λ m : gmap string string, m !! "u1"%string)) in H.
    vm_compute in H. discriminate.
Qed.

(** C2 (amended): when the post satisfies the accounting invariant, its
    engagement total is the sum of its counts, and the user holds either no
    reaction or the very kind that is toggled, then toggling that kind twice
    restores the reaction map, the per-kind counts and the engagement total.
    (When the user holds another kind, the first toggle replaces it and the
    second removes the new one.) *)
Theorem toggle_twice_identity (u key : string) (post : Post) :
  postAccounting post →
  engagement_count post = computeReactionTotal (Some (reactions_count post)) →
  reacted_by post !! u = None ∨ reacted_by post !! u = Some key →
  let post2 := toggleReaction u key (toggleReaction u key post) in
  reacted_by post2 = reacted_by post
  ∧ reactions_count post2 = reactions_count post
  ∧ engagement_count post2 = engagement_count post.
Proof.
  intros Hpost Heng Hheld. cbv zeta.
  destruct (decide (key ∈ reactionKeys)) as [Hkey|Hkey].
  2:{ rewrite !toggleReaction_guard by tauto. done. }
  destruct (decide (u = ""%string)) as [->|Hu].
  { rewrite !toggleReaction_guard by tauto. done. }
  pose proof (toggleReaction_accounting u key post Hpost) as Hpost1.
  destruct Hpost as [Hnorm Hacc]. destruct Hpost1 as [Hnorm1 _].
  destruct (toggleReaction_fields u key post Hkey Hu Hnorm) as (Hrb1 & Hrc1 & _).
  destruct (toggleReaction_fields u key _ Hkey Hu Hnorm1) as (Hrb2 & Hrc2 & Heng2).
  pose proof (accounting_lookup _ _ key Hacc Hkey) as Hcount.
  assert (reacted_by (toggleReaction u key (toggleReaction u key post)) = reacted_by post
          ∧ reactions_count (toggleReaction u key (toggleReaction u key post))
            = reactions_count post) as [Hrb Hrc].
  { rewrite Hrb2, Hrc2, Hrb1, Hrc1. clear Hrb2 Hrc2 Hrb1 Hrc1 Heng2.
    destruct Hheld as [Hnone|Hsame].
    - rewrite Hnone. rewrite (bool_decide_eq_false_2 (None = Some key)) by done.
      rewrite lookup_insert_eq, (bool_decide_eq_true_2 (Some key = Some key)) by done.
      cbn [decrementCurrent incrementNext]. rewrite lookup_insert_eq, Hcount.
      cbv [default from_option Datatypes.id].
      destruct (0 <? Z.of_nat (reactors key (reacted_by post)) + 1) eqn:Hlt;
        [|apply Z.ltb_ge in Hlt; lia].
      split; [by apply delete_insert_id|].
      rewrite insert_insert_eq. apply insert_id. rewrite Hcount. f_equal. lia.
    - pose proof (reactors_pos key _ u Hsame) as Hpos.
      rewrite Hsame. rewrite (bool_decide_eq_true_2 (Some key = Some key)) by done.
      rewrite lookup_delete_eq, (bool_decide_eq_false_2 (None = Some key)) by done.
      cbn [decrementCurrent incrementNext]. rewrite Hcount.
      destruct (0 <? Z.of_nat (reactors key (reacted_by post))) eqn:Hlt;
        [|apply Z.ltb_ge in Hlt; lia].
      rewrite lookup_insert_eq. cbv [default from_option Datatypes.id].
      split; [rewrite insert_delete_eq; by apply insert_id|].
      rewrite insert_insert_eq. apply insert_id. rewrite Hcount. f_equal. lia. }
  split; [done|]. split; [done|]. by rewrite Heng2, Hrc, Heng.
Qed.

Lemma toggle_twice_identity_witness :
  postAccounting consistentPost
  ∧ engagement_count consistentPost
    = computeReactionTotal (Some (reactions_count consistentPost))
  ∧ (reacted_by consistentPost !! "u1"%string = None
     ∨ reacted_by consistentPost !! "u1"%string = Some "love"%string)
  ∧ reacted_by (toggleReaction "u1" "love" (toggleReaction "u1" "love" consistentPost))
    = reacted_by consistentPost.
Proof.
  assert (postAccounting consistentPost) as Hacc.
  { split; [split; vm_compute; reflexivity|].
    unfold accounting. apply (bool_decide_unpack _). vm_compute. exact I. }
  assert (engagement_count consistentPost
          = computeReactionTotal (Some (reactions_count consistentPost))) as Heng.
  { vm_compute. reflexivity. }
  assert (reacted_by consistentPost !! "u1"%string = None
          ∨ reacted_by consistentPost !! "u1"%string = Some "love"%string) as Hheld.
  { right. vm_compute. reflexivity. }
  split; [exact Hacc|]. split; [exact Heng|]. split; [exact Hheld|].
  apply (toggle_twice_identity "u1" "love" consistentPost Hacc Heng Hheld).
Defined.

(** ** Rollback of a failed reaction *)

Lemma patchPost_patchPost (postId : string) (f g : Post → Post) (posts : list Post) :
  (∀ post, id (g post) = id post) →
  patchPost postId f (patchPost postId g posts)
  = patchPost postId (λ post, f (g post)) posts.
Proof.
  intros Hid. unfold patchPost. rewrite map_map. apply map_ext. intros post.
  destruct (decide (id post = postId)) as [Heq|Hne].
  - rewrite !(bool_decide_eq_true_2 (id post = postId)) by done.
    by rewrite bool_decide_eq_true_2 by (by rewrite Hid).
  - by rewrite !(bool_decide_eq_false_2 (id post = postId)) by done.
Qed.

Lemma findPost_Some (postId : string) (posts : list Post) (target : Post) :
  findPost postId posts = Some target → target ∈ posts ∧ id target = postId.
Proof.
  unfold findPost. intros H. apply find_some in H as [Hin Hid].
  split; [by apply list_elem_of_In|]. by apply bool_decide_eq_true in Hid.
Qed.

Lemma unique_id (posts : list Post) (p q : Post) :
  NoDup (map id posts) → p ∈ posts → q ∈ posts → id p = id q → p = q.
Proof.
  induction posts as [|a posts IH]; intros Hnd Hp Hq Heq.
  - by apply elem_of_nil in Hp.
  - cbn [map] in Hnd. apply NoDup_cons in Hnd as [Hnotin Hnd].
    apply elem_of_cons in Hp as [->|Hp]; apply elem_of_cons in Hq as [->|Hq].
    + done.
    + exfalso. apply Hnotin. rewrite Heq. apply list_elem_of_fmap. by exists q.
    + exfalso. apply Hnotin. rewrite <- Heq. apply list_elem_of_fmap. by exists p.
    + by apply IH.
Qed.

Lemma patchPost_fixed (postId : string) (f : Post → Post) (posts : list Post) :
  (∀ post, post ∈ posts → id post = postId → f post = post) →
  patchPost postId f posts = posts.
Proof.
  intros Hf. unfold patchPost. induction posts as [|a posts IH]; [done|].
  cbn [map]. rewrite IH by (intros; apply Hf; [by right|done]). f_equal.
  case_bool_decide; [|done]. apply Hf; [by left|done].
Qed.

Lemma rollback_after_optimistic (d : ReactionDelta) (target : Post) :
  currentReactedBy d = reacted_by target →
  currentReactionsCount d = reactions_count target →
  (engagement_count target = 0 →
   computeReactionTotal (Some (reactions_count target)) = 0) →
  (steeze_score target = Qc_of_Z 0 →
   computeSteezeScore (computeReactionTotal (Some (reactions_count target))) = Qc_of_Z 0) →
  applyReactionRollback d target (applyOptimisticReaction d target) = target.
Proof.
  intros Hrb Hrc Heng Hsteeze.
  unfold applyReactionRollback, applyOptimisticReaction. rewrite Hrb, Hrc.
  assert (orZ (engagement_count target)
            (computeReactionTotal (Some (reactions_count target)))
          = engagement_count target) as ->.
  { unfold orZ. destruct (Z.eqb_spec (engagement_count target) 0) as [H0|]; [|done].
    rewrite H0. by apply Heng. }
  assert (orQ (steeze_score target)
            (computeSteezeScore (computeReactionTotal (Some (reactions_count target))))
          = steeze_score target) as ->.
  { unfold orQ. case_decide as H0; [|done]. rewrite H0. by apply Hsteeze. }
  by destruct target.
Qed.

(** C3, counterexample: a post normalized from a record without stored
    score carries the score 0 next to one counted like; after a reaction
    whose remote step fails, the rollback writes the score recomputed from
    the counts, 0.1, so the post is not in its pre-mutation state. *)
Lemma reaction_rollback_counterexample :
  steeze_score legacyPost = Qc_of_Z 0
  ∧ map (λ post, this (steeze_score post))
      (reactToPost (sessionOf "u1") [legacyPost] "p7" "love" RemoteFailed)
    = [(1 # 10)%Q]
  ∧ reactToPost (sessionOf "u1") [legacyPost] "p7" "love" RemoteFailed ≠ [legacyPost].
Proof.
  split; [|split].
  - apply Qc_is_canon. vm_compute. reflexivity.
  - vm_compute. reflexivity.
  - intros H. apply (f_equal (map (λ post, this (steeze_score post)))) in H.
    vm_compute in H. discriminate.
Qed.

(** C3 (amended): in a feed whose posts have distinct identifiers, a
    reaction whose remote step fails leaves the list of posts exactly as
    it was, every field of the target included, provided the target's
    reaction map and counts are in normalized form and its engagement
    total and its score are either nonzero or equal to the value
    recomputed from the counts.  (A zero total or score that disagrees
    with the counts is overwritten by the recomputed value.) *)
Theorem reaction_rollback_exact (s : Session) (posts : list Post)
    (postId reactionKey : string) (target : Post) :
  remoteEnabled s = true →
  NoDup (map id posts) →
  findPost postId posts = Some target →
  normalizedReactions (reactions_count target) (reacted_by target) →
  (engagement_count target = 0 →
   computeReactionTotal (Some (reactions_count target)) = 0) →
  (steeze_score target = Qc_of_Z 0 →
   computeSteezeScore (computeReactionTotal (Some (reactions_count target))) = Qc_of_Z 0) →
  reactToPost s posts postId reactionKey RemoteFailed = posts.
Proof.
  intros Hremote Hnd Hfind Hnorm Heng Hsteeze. unfold reactToPost. rewrite Hfind.
  destruct (negb (includes reactionKeys reactionKey)); [done|].
  destruct (bool_decide (currentUserId s = ""%string)); [done|].
  destruct (suspended s); [done|].
  destruct (bool_decide (postId ∈ pendingReactions s)); [done|].
  cbv zeta. rewrite Hremote.
  rewrite patchPost_patchPost by (by intros []).
  apply patchPost_fixed. intros post Hin Hid.
  destruct (findPost_Some _ _ _ Hfind) as [Hin' Hid'].
  assert (post = target) as -> by (apply (unique_id posts); congruence).
  destruct (reactionDelta_next (currentUserId s) reactionKey target Hnorm)
    as (Hrb & Hrc & _).
  by apply rollback_after_optimistic.
Qed.

Lemma reaction_rollback_exact_witness :
  remoteEnabled (sessionOf "u2") = true
  ∧ NoDup (map id [consistentPost])
  ∧ findPost "p1" [consistentPost] = Some consistentPost
  ∧ normalizedReactions (reactions_count consistentPost) (reacted_by consistentPost)
  ∧ reactToPost (sessionOf "u2") [consistentPost] "p1" "laugh" RemoteFailed
    = [consistentPost].
Proof.
  assert (NoDup (map id [consistentPost])) as Hnd.
  { apply (bool_decide_unpack _). vm_compute. exact I. }
  assert (findPost "p1" [consistentPost] = Some consistentPost) as Hfind.
  { reflexivity. }
  assert (normalizedReactions (reactions_count consistentPost)
            (reacted_by consistentPost)) as Hnorm.
  { split; vm_compute; reflexivity. }
  split; [reflexivity|]. split; [exact Hnd|]. split; [exact Hfind|].
  split; [exact Hnorm|].
  apply (reaction_rollback_exact (sessionOf "u2") [consistentPost] "p1" "laugh"
           consistentPost eq_refl Hnd Hfind Hnorm).
  - intros H. vm_compute in H. discriminate.
  - intros H. apply (f_equal this) in H. vm_compute in H. discriminate.
Defined.

(** ** Merging the buckets *)

Lemma mergedGet_Some (merged : list Post) (rowId : string) (p : Post) :
  mergedGet merged rowId = Some p → p ∈ merged ∧ id p = rowId.
Proof. apply findPost_Some. Qed.

Lemma mergedGet_None (merged : list Post) (rowId : string) :
  mergedGet merged rowId = None → rowId ∉ map id merged.
Proof.
  unfold mergedGet, findPost. intros H Hin.
  apply list_elem_of_fmap in Hin as (p & -> & Hp).
  apply list_elem_of_In in Hp.
  pose proof (find_none _ _ H p Hp) as Hb. cbn in Hb.
  by rewrite bool_decide_eq_true_2 in Hb.
Qed.

Lemma mergedSet_ids (merged : list Post) (next : Post) :
  map id (mergedSet merged next)
  = if bool_decide (id next ∈ map id merged) then map id merged
    else map id merged ++ [id next].
Proof.
  induction merged as [|entry rest IH]; cbn [mergedSet map].
  - by rewrite bool_decide_eq_false_2 by apply not_elem_of_nil.
  - destruct (decide (id entry = id next)) as [Heq|Hne].
    + rewrite (bool_decide_eq_true_2 (id entry = id next)) by done.
      rewrite bool_decide_eq_true_2 by (rewrite Heq; by left).
      cbn [map]. by rewrite Heq.
    + rewrite (bool_decide_eq_false_2 (id entry = id next)) by done.
      cbn [map]. rewrite IH. case_bool_decide as Hin.
      * rewrite bool_decide_eq_true_2 by (by right). done.
      * rewrite bool_decide_eq_false_2; [done|].
        rewrite elem_of_cons. intros [?|?]; congruence.
Qed.

Lemma mergedSet_NoDup (merged : list Post) (next : Post) :
  NoDup (map id merged) → NoDup (map id (mergedSet merged next)).
Proof.
  intros Hnd. rewrite mergedSet_ids. case_bool_decide as Hin; [done|].
  apply NoDup_app. split; [done|]. split.
  - intros x Hx ->%list_elem_of_singleton. done.
  - apply NoDup_singleton.
Qed.

Lemma mergedSet_elem_NoDup (merged : list Post) (next p : Post) :
  NoDup (map id merged) →
  p ∈ mergedSet merged next → p = next ∨ (p ∈ merged ∧ id p ≠ id next).
Proof.
  induction merged as [|entry rest IH]; cbn [mergedSet map]; intros Hnd.
  - intros ->%list_elem_of_singleton. by left.
  - apply NoDup_cons in Hnd as [Hnotin Hnd]. case_bool_decide as Heq.
    + intros [->|Hp]%elem_of_cons; [by left|].
      right. split; [by right|]. intros Hid. apply Hnotin. rewrite Heq, <- Hid.
      apply list_elem_of_fmap. by exists p.
    + intros [->|Hp]%elem_of_cons.
      * right. split; [by left|done].
      * destruct (IH Hnd Hp) as [->|[Hin Hne]]; [by left|].
        right. split; [by right|done].
Qed.

Lemma mergedSet_next (merged : list Post) (next : Post) :
  next ∈ mergedSet merged next.
Proof.
  induction merged as [|entry rest IH]; cbn [mergedSet]; [by left|].
  case_bool_decide; [by left | by right].
Qed.

(** What [addToMerged] builds for a row. *)
Lemma addToMerged_next (merged : list Post) (row : Post) (source : Source) :
  ∃ next, addToMerged merged row source = mergedSet merged next
          ∧ id next = id row
          ∧ created_at next = created_at row
          ∧ ∀ src, flagOf src next
                   = previousFlag (mergedGet merged (id row)) (flagOf src)
                     || bool_decide (source = src).
Proof.
  eexists. split; [reflexivity|]. split; [done|]. split; [done|].
  intros []; reflexivity.
Qed.

Lemma mergeInvariant_step (adds : list (Post * Source)) (merged : list Post)
    (row : Post) (source : Source) :
  mergeInvariant adds merged →
  mergeInvariant (adds ++ [(row, source)]) (addToMerged merged row source).
Proof.
  intros (Hnd & Hcov & Hflag).
  destruct (addToMerged_next merged row source) as (next & -> & Hid & _ & Hnext).
  split; [by apply mergedSet_NoDup|]. split.
  - intros row' src' Hin. rewrite mergedSet_ids.
    apply elem_of_app in Hin as [Hin|Hin].
    + apply Hcov in Hin. case_bool_decide; [done|]. apply elem_of_app. by left.
    + apply list_elem_of_singleton in Hin as [= -> ->]. rewrite <- Hid.
      case_bool_decide; [done|]. apply elem_of_app. right. by left.
  - intros p src Hp0.
    destruct (mergedSet_elem_NoDup merged next p Hnd Hp0) as [->|[Hp Hne]].
    + rewrite Hnext, orb_true_iff, bool_decide_eq_true. split.
      * intros [Hprev| ->].
        -- destruct (mergedGet merged (id row)) as [q|] eqn:Hget; [|done].
           apply mergedGet_Some in Hget as [Hq Hqid]. cbn [previousFlag] in Hprev.
           apply (Hflag q src Hq) in Hprev as (row' & Hin & Hrow').
           exists row'. split; [apply elem_of_app; by left | congruence].
        -- exists row. split; [apply elem_of_app; right; by left | done].
      * intros (row' & Hin & Hrow'). apply elem_of_app in Hin as [Hin|Hin].
        -- left. destruct (mergedGet merged (id row)) as [q|] eqn:Hget.
           ++ apply mergedGet_Some in Hget as [Hq Hqid]. cbn [previousFlag].
              apply (Hflag q src Hq). exists row'. split; [done | congruence].
           ++ apply mergedGet_None in Hget. exfalso. apply Hget.
              rewrite <- Hid, <- Hrow'. by apply (Hcov row' src).
        -- apply list_elem_of_singleton in Hin as [= -> ->]. by right.
    + rewrite (Hflag p src Hp). split.
      * intros (row' & Hin & Hrow'). exists row'. split; [apply elem_of_app; by left|done].
      * intros (row' & Hin & Hrow'). apply elem_of_app in Hin as [Hin|Hin].
        -- by exists row'.
        -- apply list_elem_of_singleton in Hin as [= -> ->]. congruence.
Qed.

Lemma mergeInvariant_foldl (adds0 adds : list (Post * Source)) (merged : list Post) :
  mergeInvariant adds0 merged →
  mergeInvariant (adds0 ++ adds)
    (foldl (λ m a, addToMerged m a.1 a.2) merged adds).
Proof.
  revert adds0 merged. induction adds as [|[row src] adds IH]; intros adds0 merged Hinv.
  - by rewrite app_nil_r.
  - cbn [foldl fst snd]. replace (adds0 ++ (row, src) :: adds)
      with ((adds0 ++ [(row, src)]) ++ adds) by (by rewrite <- app_assoc).
    apply IH. by apply mergeInvariant_step.
Qed.

Lemma addBucket_rows (source : Source) (merged rows : list Post) :
  addBucket source merged rows
  = foldl (λ m a, addToMerged m a.1 a.2) merged (map (λ row, (row, source)) rows).
Proof.
  unfold addBucket. revert merged. induction rows as [|row rows IH]; intros merged;
    [done|]. cbn [foldl map fst snd]. apply IH.
Qed.

Lemma mergeBuckets_rows (bucketState : BucketState) :
  mergeBuckets bucketState
  = foldl (λ m a, addToMerged m a.1 a.2) [] (bucketRows bucketState).
Proof.
  unfold mergeBuckets, bucketRows. rewrite !foldl_app, <- !addBucket_rows.
  f_equal. generalize (addBucket SrcCampus (addBucket SrcMine [] (mine bucketState))
                         (campus bucketState)).
  induction (following bucketState) as [|rows shards IH]; intros merged; [done|].
  cbn [foldl concat]. rewrite IH, !addBucket_rows, map_app, foldl_app. done.
Qed.

Lemma mergeBuckets_invariant (bucketState : BucketState) :
  mergeInvariant (bucketRows bucketState) (mergeBuckets bucketState).
Proof.
  rewrite mergeBuckets_rows. apply (mergeInvariant_foldl [] _ []).
  split; [constructor|]. split.
  - intros row src Hin. by apply elem_of_nil in Hin.
  - intros p src Hp. by apply elem_of_nil in Hp.
Qed.

(** ** The sort *)

Lemma insertByScore_Permutation (a : Post) (sorted : list Post) :
  insertByScore a sorted ≡ₚ a :: sorted.
Proof.
  induction sorted as [|b rest IH]; cbn [insertByScore]; [done|].
  case_decide; [done|]. rewrite IH. apply Permutation_swap.
Qed.

Lemma sortByScore_Permutation (posts : list Post) : sortByScore posts ≡ₚ posts.
Proof.
  unfold sortByScore. induction posts as [|a posts IH]; cbn [foldr]; [done|].
  rewrite insertByScore_Permutation. by rewrite IH.
Qed.

Lemma sortByScore_elem (posts : list Post) (q : Post) :
  q ∈ sortByScore posts ↔ q ∈ posts.
Proof. by rewrite sortByScore_Permutation. Qed.

Lemma insertByScore_sorted (a : Post) (sorted : list Post) :
  StronglySorted scoreOrder sorted → StronglySorted scoreOrder (insertByScore a sorted).
Proof.
  induction 1 as [|b rest Hsorted IH Hall]; cbn [insertByScore].
  - repeat constructor.
  - case_decide as Hle.
    + constructor; [by constructor|]. constructor; [done|].
      eapply Forall_impl; [exact Hall|]. intros c Hc. unfold scoreOrder in *.
      by eapply Qcle_trans.
    + constructor; [done|].
      rewrite insertByScore_Permutation. constructor; [|done].
      unfold scoreOrder. apply Qclt_le_weak. by apply Qclt_nge.
Qed.

Lemma sortByScore_sorted (posts : list Post) :
  StronglySorted scoreOrder (sortByScore posts).
Proof.
  unfold sortByScore. induction posts as [|a posts IH]; cbn [foldr]; [constructor|].
  by apply insertByScore_sorted.
Qed.

Lemma insertByScore_withScore (s : Qc) (a : Post) (sorted : list Post) :
  withScore s (insertByScore a sorted) = withScore s (a :: sorted).
Proof.
  unfold withScore. induction sorted as [|b rest IH]; cbn [insertByScore]; [done|].
  case_decide as Hle; [done|]. cbn [List.filter] in *. rewrite IH.
  repeat case_bool_decide; try done.
  exfalso. apply Hle. replace (_feedScore b) with s by done.
  replace (_feedScore a) with s by done. apply Qcle_refl.
Qed.

Lemma sortByScore_withScore (s : Qc) (posts : list Post) :
  withScore s (sortByScore posts) = withScore s posts.
Proof.
  unfold sortByScore. induction posts as [|a posts IH]; cbn [foldr]; [done|].
  rewrite insertByScore_withScore. unfold withScore in *. cbn [List.filter].
  by rewrite IH.
Qed.

(** ** The ranked feed *)

Lemma rankPosts_elem (nowMs : Z) (styleTags : list string) (userId : string)
    (bucketState : BucketState) (q : Post) :
  q ∈ rankPosts nowMs styleTags userId bucketState →
  ∃ p, p ∈ mergeBuckets bucketState ∧ inWindow nowMs p = true
       ∧ q = withFeedScore p
               (feedScore nowMs (list_to_set (map toLowerCase styleTags))
                  (interactionTagWeights userId (mergeBuckets bucketState))
                  (interactionAuthorWeights userId (mergeBuckets bucketState)) p).
Proof.
  unfold rankPosts. rewrite sortByScore_elem. unfold scoredPosts.
  intros Hq. apply list_elem_of_fmap in Hq as (p & -> & Hp).
  apply list_elem_of_In, filter_In in Hp as [Hp Hwin].
  exists p. split; [by apply list_elem_of_In|]. by split.
Qed.

Lemma bucketRows_elem (bucketState : BucketState) (row : Post) (src : Source) :
  (row, src) ∈ bucketRows bucketState
  ↔ row ∈ match src with
          | SrcMine => mine bucketState
          | SrcCampus => campus bucketState
          | SrcFollowing => concat (following bucketState)
          | SrcGlobal => global bucketState
          end.
Proof.
  unfold bucketRows. rewrite !elem_of_app, !list_elem_of_fmap.
  destruct src; split.
  all: try (intros [(r & [= ->] & Hr)|[(r & [= ->] & Hr)|[(r & [= ->] & Hr)|(r & [= ->] & Hr)]]];
            done).
  all: intros Hr; eauto 10.
Qed.

Lemma merged_flag (bucketState : BucketState) (p : Post) (src : Source) :
  p ∈ mergeBuckets bucketState →
  flagOf src p
  = inBucket match src with
             | SrcMine => mine bucketState
             | SrcCampus => campus bucketState
             | SrcFollowing => concat (following bucketState)
             | SrcGlobal => global bucketState
             end (id p).
Proof.
  intros Hp. destruct (mergeBuckets_invariant bucketState) as (_ & _ & Hflag).
  apply eq_true_iff_eq. rewrite (Hflag p src Hp). unfold inBucket.
  rewrite bool_decide_eq_true, list_elem_of_fmap. split.
  - intros (row & Hin & Hid). exists row. split; [done|]. by apply bucketRows_elem in Hin.
  - intros (row & Hid & Hin). exists row. split; [|done]. by apply bucketRows_elem.
Qed.

(** C4: the source boost of a ranked entry is the sum of the boost
    constants of all buckets that contain the post (own 120, following 45,
    campus 12, global 6), and it enters the feed score as one summand next
    to recency, engagement, style, interaction and author affinity.  In
    particular an entry found in the own-posts and the campus bucket only,
    with recency 20 and nothing else, scores 120 + 12 + 20 = 152. *)
Theorem source_boost_additive (nowMs : Z) (styleTags : list string) (userId : string)
    (bucketState : BucketState) (q : Post) :
  q ∈ rankPosts nowMs styleTags userId bucketState →
  let styleSet : gset string := list_to_set (map toLowerCase styleTags) in
  let tagWeights := interactionTagWeights userId (mergeBuckets bucketState) in
  let authorWeights := interactionAuthorWeights userId (mergeBuckets bucketState) in
  sourceBoost q = provenanceBoost bucketState (id q)
  ∧ _feedScore q
    = (Qc_of_Z (provenanceBoost bucketState (id q)) + recencyScore nowMs q
       + engagementScore q + Qc_of_Z (styleScore styleSet q)
       + Qc_of_Z (interactionScore tagWeights q)
       + Qc_of_Z (authorAffinity authorWeights q))%Qc
  ∧ (inBucket (mine bucketState) (id q) = true →
     inBucket (campus bucketState) (id q) = true →
     inBucket (concat (following bucketState)) (id q) = false →
     inBucket (global bucketState) (id q) = false →
     recencyScore nowMs q = Qc_of_Z 20 → engagementScore q = Qc_of_Z 0 →
     styleScore styleSet q = 0 → interactionScore tagWeights q = 0 →
     authorAffinity authorWeights q = 0 →
     _feedScore q = Qc_of_Z 152).
Proof.
  intros Hq. cbv zeta.
  destruct (rankPosts_elem _ _ _ _ _ Hq) as (p & Hp & _ & ->).
  assert (sourceBoost p = provenanceBoost bucketState (id p)) as Hboost.
  { unfold sourceBoost, provenanceBoost.
    rewrite <- (merged_flag bucketState p SrcMine Hp).
    rewrite <- (merged_flag bucketState p SrcFollowing Hp).
    rewrite <- (merged_flag bucketState p SrcCampus Hp).
    rewrite <- (merged_flag bucketState p SrcGlobal Hp). done. }
  split; [exact Hboost|]. split.
  - cbn [withFeedScore _feedScore id]. unfold feedScore. by rewrite Hboost.
  - cbn [withFeedScore _feedScore id]. unfold feedScore. rewrite Hboost.
    intros Hmine Hcampus Hfollowing Hglobal Hrec Heng Hstyle Hinter Hauthor.
    change (recencyScore nowMs (withFeedScore p _)) with (recencyScore nowMs p) in Hrec.
    change (engagementScore (withFeedScore p _)) with (engagementScore p) in Heng.
    change (styleScore _ (withFeedScore p _)) with
      (styleScore (list_to_set (map toLowerCase styleTags)) p) in Hstyle.
    change (interactionScore _ (withFeedScore p _)) with
      (interactionScore (interactionTagWeights userId (mergeBuckets bucketState)) p)
      in Hinter.
    change (authorAffinity _ (withFeedScore p _)) with
      (authorAffinity (interactionAuthorWeights userId (mergeBuckets bucketState)) p)
      in Hauthor.
    unfold provenanceBoost.
    rewrite Hmine, Hcampus, Hfollowing, Hglobal, Hrec, Heng, Hstyle, Hinter, Hauthor.
    apply Qc_is_canon. reflexivity.
Qed.

Lemma source_boost_additive_witness :
  map id (rankPosts exampleNow [] "me" ownCampusBuckets) = ["p"%string]
  ∧ ∀ q, q ∈ rankPosts exampleNow [] "me" ownCampusBuckets →
         sourceBoost q = 132 ∧ _feedScore q = Qc_of_Z 152.
Proof.
  split; [vm_compute; reflexivity|]. intros q Hq.
  destruct (source_boost_additive exampleNow [] "me" ownCampusBuckets q Hq)
    as (Hboost & _ & Hscore).
  assert (id q = "p"%string) as Hid.
  { apply list_elem_of_In in Hq. apply (in_map id) in Hq.
    assert (map id (rankPosts exampleNow [] "me" ownCampusBuckets) = ["p"%string]) as E
      by (vm_compute; reflexivity).
    rewrite E in Hq. by destruct Hq as [<-|[]]. }
  destruct (rankPosts_elem _ _ _ _ _ Hq) as (p & Hp & _ & Hqp).
  assert (mergeBuckets ownCampusBuckets
          = [withFlags (rowAt "p" "me" (exampleNow - 19 * 3600000) 0)
               true false true false]) as Hmerged by (vm_compute; reflexivity).
  rewrite Hmerged in Hp. apply list_elem_of_singleton in Hp. subst p.
  split.
  - rewrite Hboost, Hid. vm_compute. reflexivity.
  - rewrite Hid in Hscore. rewrite Hqp. rewrite Hqp in Hscore.
    apply Hscore; try (vm_compute; reflexivity);
      apply Qc_is_canon; vm_compute; reflexivity.
Defined.

(** C5: a merged post whose creation time is missing or invalid (it reads
    as 0 or less) or lies more than the 24-hour window before the clock
    has no entry in the ranked list, whatever its score would be; every
    entry of the ranked list has a valid creation time inside the
    window. *)
Theorem window_exclusion (nowMs : Z) (styleTags : list string) (userId : string)
    (bucketState : BucketState) (p : Post) :
  p ∈ mergeBuckets bucketState →
  toMillis (created_at p) ≤ 0 ∨ feedWindowMs < nowMs - toMillis (created_at p) →
  (id p ∉ map id (rankPosts nowMs styleTags userId bucketState))
  ∧ Forall (λ q, 0 < toMillis (created_at q)
                 ∧ nowMs - toMillis (created_at q) ≤ feedWindowMs)
      (rankPosts nowMs styleTags userId bucketState).
Proof.
  intros Hp Hout.
  assert (∀ q, q ∈ rankPosts nowMs styleTags userId bucketState →
            ∃ p', p' ∈ mergeBuckets bucketState ∧ id p' = id q
                  ∧ created_at p' = created_at q
                  ∧ 0 < toMillis (created_at q)
                  ∧ nowMs - toMillis (created_at q) ≤ feedWindowMs) as Hranked.
  { intros q Hq. destruct (rankPosts_elem _ _ _ _ _ Hq) as (p' & Hp' & Hwin & ->).
    exists p'. split; [done|]. split; [done|]. split; [done|].
    unfold inWindow in Hwin. apply andb_true_iff in Hwin as [H1 H2].
    apply Z.ltb_lt in H1. apply Z.leb_le in H2. done. }
  split.
  - intros Hin. apply list_elem_of_fmap in Hin as (q & Hid & Hq).
    destruct (Hranked q Hq) as (p' & Hp' & Hid' & Hcreated & Hpos & Hwin).
    destruct (mergeBuckets_invariant bucketState) as (Hnd & _ & _).
    assert (p' = p) as -> by (apply (unique_id (mergeBuckets bucketState)); congruence).
    rewrite <- Hcreated in Hpos, Hwin. lia.
  - apply Forall_forall. intros q Hq.
    destruct (Hranked q Hq) as (p' & _ & _ & _ & Hpos & Hwin). done.
Qed.

Lemma window_exclusion_witness :
  let stale := withFlags (rowAt "old" "me" (exampleNow - 25 * 3600000) 50)
                 true false true true in
  (stale ∈ mergeBuckets staleBuckets)
  ∧ feedWindowMs < exampleNow - toMillis (created_at stale)
  ∧ (id stale ∉ map id (rankPosts exampleNow [] "me" staleBuckets))
  ∧ map id (rankPosts exampleNow [] "me" staleBuckets) = ["new"%string].
Proof.
  cbv zeta.
  assert ((withFlags (rowAt "old" "me" (exampleNow - 25 * 3600000) 50)
             true false true true) ∈ mergeBuckets staleBuckets) as Hin.
  { apply list_elem_of_lookup. exists 0%nat. vm_compute. reflexivity. }
  assert (feedWindowMs < exampleNow - toMillis (created_at
            (withFlags (rowAt "old" "me" (exampleNow - 25 * 3600000) 50)
               true false true true))) as Hold by (vm_compute; reflexivity).
  split; [exact Hin|]. split; [exact Hold|]. split.
  - exact (proj1 (window_exclusion exampleNow [] "me" staleBuckets _ Hin
                    (or_intror Hold))).
  - vm_compute. reflexivity.
Defined.

(** C6, counterexample: a campus post four hours old that the global
    subscription also delivers, and a one-hour-old post known from the
    global subscription only, both score 98; the older one is listed
    first, because it entered the merge first. *)
Lemma rank_tie_break_counterexample :
  map id (rankPosts exampleNow [] "me" tieBuckets) = ["a"%string; "b"%string]
  ∧ map (λ q, this (_feedScore q)) (rankPosts exampleNow [] "me" tieBuckets)
    = [98%Q; 98%Q]
  ∧ map (λ q, toMillis (created_at q)) (rankPosts exampleNow [] "me" tieBuckets)
    = [exampleNow - 4 * 3600000; exampleNow - 1 * 3600000]
  ∧ ¬ tiesNewestFirst (rankPosts exampleNow [] "me" tieBuckets).
Proof.
  assert (map (λ q, this (_feedScore q)) (rankPosts exampleNow [] "me" tieBuckets)
          = [98%Q; 98%Q]) as Hscores by (vm_compute; reflexivity).
  assert (map (λ q, toMillis (created_at q)) (rankPosts exampleNow [] "me" tieBuckets)
          = [exampleNow - 4 * 3600000; exampleNow - 1 * 3600000]) as Htimes
    by (vm_compute; reflexivity).
  split; [vm_compute; reflexivity|]. split; [exact Hscores|]. split; [exact Htimes|].
  intros Hties.
  destruct (rankPosts exampleNow [] "me" tieBuckets) as [|a [|b rest]];
    try discriminate.
  injection Hscores as Ha Hb _. injection Htimes as Hta Htb _.
  assert (_feedScore a = _feedScore b) as Heq.
  { apply Qc_is_canon. by rewrite Ha, Hb. }
  pose proof (Hties 0%nat 1%nat a b ltac:(lia) eq_refl eq_refl Heq) as Hle.
  rewrite Hta, Htb in Hle. vm_compute in Hle. by apply Hle.
Qed.

Lemma merged_ids_first_met (adds : list (Post * Source)) (merged : list Post) :
  map id (foldl (λ m a, addToMerged m a.1 a.2) merged adds)
  = foldl (λ seen x, if bool_decide (x ∈ seen) then seen else seen ++ [x])
      (map id merged) (map (λ a : Post * Source, id a.1) adds).
Proof.
  revert merged. induction adds as [|[row src] adds IH]; intros merged; [done|].
  cbn [foldl map fst snd]. rewrite IH. f_equal.
  destruct (addToMerged_next merged row src) as (next & -> & Hid & _).
  by rewrite mergedSet_ids, Hid.
Qed.

Lemma mergeBuckets_first_met (bucketState : BucketState) :
  map id (mergeBuckets bucketState) = firstMetIds bucketState.
Proof.
  unfold firstMetIds, uniqueInOrder. by rewrite mergeBuckets_rows, merged_ids_first_met.
Qed.

Lemma filter_sublist {A : Type} (f : A → bool) (l : list A) :
  List.filter f l `sublist_of` l.
Proof.
  induction l as [|x l IH]; cbn [List.filter]; [done|].
  destruct (f x); [by apply sublist_skip | by apply sublist_cons].
Qed.

Lemma scoredWith_ids (score : Post → Qc) (nowMs : Z) (bucketState : BucketState) :
  map id (scoredWith score nowMs bucketState)
  = map id (List.filter (inWindow nowMs) (mergeBuckets bucketState)).
Proof. unfold scoredWith. rewrite map_map. by apply map_ext. Qed.

Lemma rankPosts_rankWith (nowMs : Z) (styleTags : list string) (userId : string)
    (bucketState : BucketState) :
  rankPosts nowMs styleTags userId bucketState
  = rankWith (rankScore nowMs styleTags userId bucketState) nowMs bucketState
  ∧ scoredPosts nowMs styleTags userId bucketState
    = scoredWith (rankScore nowMs styleTags userId bucketState) nowMs bucketState.
Proof. done. Qed.

Lemma rankWith_ties_first_met (score : Post → Qc) (nowMs : Z) (bucketState : BucketState)
    (s : Qc) :
  withScore s (rankWith score nowMs bucketState)
  = withScore s (scoredWith score nowMs bucketState)
  ∧ map id (withScore s (rankWith score nowMs bucketState))
    `sublist_of` firstMetIds bucketState.
Proof.
  assert (withScore s (rankWith score nowMs bucketState)
          = withScore s (scoredWith score nowMs bucketState)) as Hstable
    by apply sortByScore_withScore.
  split; [exact Hstable|]. rewrite Hstable, <- mergeBuckets_first_met.
  transitivity (map id (scoredWith score nowMs bucketState)).
  - apply (fmap_sublist id). apply filter_sublist.
  - rewrite scoredWith_ids. apply (fmap_sublist id). apply filter_sublist.
Qed.

(** C6 (amended): the ranked list is sorted by descending score, and
    entries with equal score keep the order they have in the merged map,
    which is the order in which the merge first met their identifiers: the
    rows of the own-posts bucket, then campus, then the followee shards,
    then global, every identifier at its first occurrence.  In full: the
    entries of any one score are, in the same order, those of the array
    handed to the sort; that array lists the in-window merged entries in
    merged order; the merged identifiers are exactly the first-met
    sequence, which has no duplicates; so the identifiers of the entries
    of any one score form a subsequence of it.  Neither the creation time
    nor the identifier takes part in the comparison, and all of this
    holds for whatever number the score computation yields, the ranker
    being the instance at its own score. *)
Theorem rank_sorted_stable (nowMs : Z) (styleTags : list string) (userId : string)
    (bucketState : BucketState) :
  StronglySorted scoreOrder (rankPosts nowMs styleTags userId bucketState)
  ∧ (∀ s, withScore s (rankPosts nowMs styleTags userId bucketState)
          = withScore s (scoredPosts nowMs styleTags userId bucketState))
  ∧ map id (scoredPosts nowMs styleTags userId bucketState)
    = map id (List.filter (inWindow nowMs) (mergeBuckets bucketState))
  ∧ map id (mergeBuckets bucketState) = firstMetIds bucketState
  ∧ NoDup (firstMetIds bucketState)
  ∧ (∀ s, map id (withScore s (rankPosts nowMs styleTags userId bucketState))
          `sublist_of` firstMetIds bucketState)
  ∧ rankPosts nowMs styleTags userId bucketState
    = rankWith (rankScore nowMs styleTags userId bucketState) nowMs bucketState
  ∧ ∀ score : Post → Qc,
      StronglySorted scoreOrder (rankWith score nowMs bucketState)
      ∧ ∀ s, withScore s (rankWith score nowMs bucketState)
             = withScore s (scoredWith score nowMs bucketState)
             ∧ map id (scoredWith score nowMs bucketState)
               = map id (List.filter (inWindow nowMs) (mergeBuckets bucketState))
             ∧ map id (withScore s (rankWith score nowMs bucketState))
               `sublist_of` firstMetIds bucketState.
Proof.
  destruct (rankPosts_rankWith nowMs styleTags userId bucketState) as [Hrank Hscored].
  split; [apply sortByScore_sorted|].
  split; [intros s; apply sortByScore_withScore|].
  split; [rewrite Hscored; apply scoredWith_ids|].
  split; [apply mergeBuckets_first_met|].
  split.
  { rewrite <- mergeBuckets_first_met.
    by destruct (mergeBuckets_invariant bucketState) as (Hnd & _). }
  split; [intros s; rewrite Hrank; apply rankWith_ties_first_met|].
  split; [exact Hrank|].
  intros score. split; [apply sortByScore_sorted|]. intros s.
  destruct (rankWith_ties_first_met score nowMs bucketState s) as [Hstable Hsub].
  split; [exact Hstable|]. split; [apply scoredWith_ids | exact Hsub].
Qed.

(** ** Comments *)

Lemma findPost_patchPost (postId : string) (f : Post → Post) (posts : list Post)
    (target : Post) :
  (∀ post, id (f post) = id post) →
  findPost postId posts = Some target →
  findPost postId (patchPost postId f posts) = Some (f target).
Proof.
  intros Hid. unfold findPost, patchPost.
  induction posts as [|a posts IH]; [done|]. cbn [List.find map].
  destruct (decide (id a = postId)) as [Ha|Ha].
  - rewrite !(bool_decide_eq_true_2 (id a = postId)) by done.
    rewrite bool_decide_eq_true_2 by (by rewrite Hid). by intros [= ->].
  - rewrite !(bool_decide_eq_false_2 (id a = postId)) by done. exact IH.
Qed.

(** C7: when a comment passes the guards of [addReflectionComment], the
    list of posts after a failed remote step is the optimistically patched
    list, the same as after a successful one: the target keeps the
    appended comment at the end of its comments and its comment count
    stays one higher.  The failure handler restores nothing. *)
Theorem comment_failure_keeps_comment (s : Session) (author : CommentAuthor)
    (posts : list Post) (postId draft : string) (nowMs : Z) (target : Post) :
  findPost postId posts = Some target →
  media_type target ≠ "text"%string →
  suspended s = false →
  postId ∉ pendingComments s →
  trim draft ≠ ""%string →
  currentUserId s ≠ ""%string →
  let nextComment := buildComment (currentUserId s) author (trim draft) nowMs in
  let after := addReflectionComment s author posts postId draft nowMs RemoteFailed in
  after = patchPost postId (appendComment nextComment) posts
  ∧ after = addReflectionComment s author posts postId draft nowMs RemoteOk
  ∧ ∃ target', findPost postId after = Some target'
               ∧ comments target' = comments target ++ [nextComment]
               ∧ comments_count target' = orZ (comments_count target) 0 + 1.
Proof.
  intros Hfind Hmedia Hsusp Hpending Htext Huser. cbv zeta.
  assert (∀ outcome,
            addReflectionComment s author posts postId draft nowMs outcome
            = patchPost postId
                (appendComment (buildComment (currentUserId s) author (trim draft) nowMs))
                posts) as Hrun.
  { intros outcome. unfold addReflectionComment. rewrite Hfind, Hsusp.
    rewrite (bool_decide_eq_false_2 (media_type target = "text"%string)) by done.
    rewrite (bool_decide_eq_false_2 (postId ∈ pendingComments s)) by done.
    rewrite (bool_decide_eq_false_2 (trim draft = ""%string)) by done.
    rewrite (bool_decide_eq_false_2 (currentUserId s = ""%string)) by done.
    cbn [orb]. by destruct (remoteEnabled s), outcome. }
  rewrite !Hrun. split; [done|]. split; [done|].
  eexists. split; [apply findPost_patchPost; [by intros []|exact Hfind]|].
  by split.
Qed.

Lemma comment_failure_keeps_comment_witness :
  findPost "r1" [imagePost] = Some imagePost
  ∧ media_type imagePost ≠ "text"%string
  ∧ trim "  nice one " ≠ ""%string
  ∧ map (λ post, map c_text (comments post))
      (addReflectionComment (sessionOf "u5") exampleAuthor [imagePost] "r1"
         "  nice one " exampleNow RemoteFailed)
    = [["nice one"%string]].
Proof.
  assert (findPost "r1" [imagePost] = Some imagePost) as Hfind by reflexivity.
  assert (media_type imagePost ≠ "text"%string) as Hmedia by (vm_compute; discriminate).
  assert (trim "  nice one " ≠ ""%string) as Htext by (vm_compute; discriminate).
  split; [exact Hfind|]. split; [exact Hmedia|]. split; [exact Htext|].
  destruct (comment_failure_keeps_comment (sessionOf "u5") exampleAuthor [imagePost]
              "r1" "  nice one " exampleNow imagePost Hfind Hmedia eq_refl
              ltac:(cbn; apply not_elem_of_empty) Htext ltac:(discriminate))
    as (Hafter & _ & _).
  rewrite Hafter. vm_compute. reflexivity.
Defined.

(** ** Paging *)

(** C8: for a fixed filtered list, the window shown before [loadMoreFeed]
    is a prefix of the window shown after it (so every entry stays, in the
    same order), and the new window has one more page or the whole list. *)
Theorem loadMore_monotone (moodFiltered : list Post) (st : PagerState) :
  let before := visibleFeedPosts moodFiltered (feedVisibleCount st) in
  let after :=
    visibleFeedPosts moodFiltered (feedVisibleCount (loadMoreFeed moodFiltered st)) in
  before `prefix_of` after
  ∧ before ⊆ after
  ∧ length after
    = Nat.min (length moodFiltered) (feedVisibleCount st + feedPageSize).
Proof.
  cbv zeta. unfold visibleFeedPosts, loadMoreFeed. cbn [feedVisibleCount].
  set (k := feedVisibleCount st).
  set (next := Nat.min (length moodFiltered) (k + feedPageSize)).
  assert (take k moodFiltered `prefix_of` take next moodFiltered) as Hprefix.
  { destruct (decide (k ≤ length moodFiltered)%nat) as [Hle|Hgt].
    - replace (take k moodFiltered) with (take k (take next moodFiltered)).
      + apply prefix_take.
      + rewrite take_take. f_equal. unfold next, feedPageSize. lia.
    - rewrite (take_ge moodFiltered k) by lia.
      rewrite (take_ge moodFiltered next) by (unfold next, feedPageSize; lia). done. }
  split; [exact Hprefix|]. split.
  - destruct Hprefix as [rest ->]. intros p Hp. apply elem_of_app. by left.
  - rewrite length_take. unfold next. lia.
Qed.

(** ** Moderation *)

Lemma visible_status (post : Post) :
  negb (bool_decide (orS (moderated_status post) "active" = "hidden"%string)) = true
  ↔ moderated_status post ≠ "hidden"%string.
Proof.
  rewrite negb_true_iff, bool_decide_eq_false. unfold orS. case_bool_decide as He.
  - rewrite He. split; intros _; discriminate.
  - done.
Qed.

(** C10: the visible selection of a viewer who is not an admin keeps
    exactly the posts whose moderation status is not ['hidden'], so none
    of the posts it returns, nor of the home feed and of the page window
    cut from it, is hidden; for an admin the selection is the whole list,
    hidden posts included. *)
Theorem visiblePosts_moderation (posts : list Post) (selectedHashtag : string)
    (count : nat) :
  Forall (λ post, moderated_status post ≠ "hidden"%string) (visiblePosts false posts)
  ∧ visiblePosts false posts
    = List.filter (λ post, negb (bool_decide (moderated_status post = "hidden"%string)))
        posts
  ∧ Forall (λ post, moderated_status post ≠ "hidden"%string)
      (visibleFeedPosts
         (moodFilteredHomePosts selectedHashtag (homePosts (visiblePosts false posts)))
         count)
  ∧ visiblePosts true posts = posts.
Proof.
  assert (Forall (λ post, moderated_status post ≠ "hidden"%string)
            (visiblePosts false posts)) as Hvisible.
  { apply Forall_forall. intros p Hp. unfold visiblePosts in Hp.
    apply list_elem_of_In, filter_In in Hp as [_ Hp]. by apply visible_status. }
  split; [exact Hvisible|]. split; [|split].
  - unfold visiblePosts. apply filter_ext. intros p. cbn [orb].
    apply eq_true_iff_eq. rewrite visible_status, negb_true_iff, bool_decide_eq_false.
    done.
  - unfold visibleFeedPosts. apply Forall_take.
    assert (∀ (f : Post → bool) l,
              Forall (λ post, moderated_status post ≠ "hidden"%string) l →
              Forall (λ post, moderated_status post ≠ "hidden"%string) (List.filter f l))
      as Hfilter.
    { intros f l Hl. apply Forall_forall. intros p Hp.
      apply list_elem_of_In, filter_In in Hp as [Hp _].
      rewrite Forall_forall in Hl. by apply Hl, list_elem_of_In. }
    unfold moodFilteredHomePosts, homePosts. case_bool_decide;
      [apply Hfilter | apply Hfilter, Hfilter]; exact Hvisible.
  - clear Hvisible. unfold visiblePosts. induction posts as [|p posts IH]; [done|].
    cbn [List.filter orb] in *. by rewrite IH.
Qed.

(** ** Delivery of a new post *)

Lemma patchPost_head (postId : string) (f : Post → Post) (post : Post)
    (prev : list Post) :
  id post = postId → postId ∉ map id prev →
  patchPost postId f (post :: prev) = f post :: prev.
Proof.
  intros Hid Hfresh. unfold patchPost. cbn [map].
  rewrite bool_decide_eq_true_2 by done. f_equal.
  apply patchPost_fixed. intros p Hp Hpid. exfalso. apply Hfresh.
  rewrite <- Hpid. apply list_elem_of_fmap. by exists p.
Qed.

Lemma filter_fresh (postId : string) (prev : list Post) :
  postId ∉ map id prev →
  List.filter (λ post, negb (bool_decide (id post = postId))) prev = prev.
Proof.
  induction prev as [|p prev IH]; [done|]. cbn [List.filter map].
  intros [Hp Hrest]%not_elem_of_cons.
  rewrite bool_decide_eq_false_2 by congruence. cbn [negb]. f_equal. by apply IH.
Qed.

(** C9, counterexample: a caption-only post whose create round-trip
    fails is not removed; it stays in the feed, tagged ['failed']. *)
Lemma text_post_failure_counterexample :
  selectedFile textDraft = false
  ∧ map (λ post, (id post, media_type post, delivery_status post))
      (createPost (sessionOf "me") false textDraft exampleNow UploadFailed
         PublishFailed [])
    = [(tempIdAt exampleNow, "text"%string, Some "failed"%string)]
  ∧ ¬ (tempIdAt exampleNow
       ∉ map id (createPost (sessionOf "me") false textDraft exampleNow UploadFailed
                   PublishFailed [])).
Proof.
  split; [reflexivity|]. split; [vm_compute; reflexivity|].
  intros H. apply H. vm_compute. by left.
Qed.

(** C9 (amended): for a post that passes the guards of [createPost] with a
    fresh temporary identifier: when the publish step fails (the post is
    caption-only, or its media upload succeeded) the post stays at the
    front of the feed, tagged ['failed']; when the media upload itself
    fails the post is removed and the feed is as before. *)
Theorem createPost_failure (s : Session) (draft : Draft) (nowMs : Z)
    (upload : UploadOutcome) (prev : list Post) :
  currentUserId s ≠ ""%string →
  suspended s = false →
  remoteEnabled s = true →
  trim (draftCaption draft) ≠ ""%string →
  (postMode draft = "reflection"%string → selectedFile draft = true) →
  tempIdAt nowMs ∉ map id prev →
  (selectedFile draft = false ∨ (∃ url mediaType, upload = Uploaded url mediaType) →
   ∃ post, createPost s false draft nowMs upload PublishFailed prev = post :: prev
           ∧ id post = tempIdAt nowMs
           ∧ delivery_status post = Some "failed"%string)
  ∧ (selectedFile draft = true →
     ∀ publish, createPost s false draft nowMs UploadFailed publish prev = prev).
Proof.
  intros Huser Hsusp Hremote Hcaption Hmode Hfresh.
  assert (∀ upload publish,
            createPost s false draft nowMs upload publish prev
            = let prev1 := optimisticPost s draft nowMs :: prev in
              if selectedFile draft then
                match upload with
                | Uploaded url mediaType =>
                    publishStep s (tempIdAt nowMs) publish
                      (patchPost (tempIdAt nowMs)
                         (λ post, withMedia post url mediaType) prev1)
                | UploadFailed =>
                    List.filter (λ post, negb (bool_decide (id post = tempIdAt nowMs)))
                      prev1
                end
              else publishStep s (tempIdAt nowMs) publish prev1) as Hrun.
  { intros up pub. unfold createPost. rewrite Hsusp.
    rewrite (bool_decide_eq_false_2 (currentUserId s = ""%string)) by done.
    rewrite (bool_decide_eq_false_2 (trim (draftCaption draft) = ""%string)) by done.
    cbn [orb]. case_bool_decide as Hm; [|done]. by rewrite (Hmode Hm). }
  split.
  - intros Hcase. rewrite Hrun. cbv zeta. unfold publishStep. rewrite Hremote.
    destruct (selectedFile draft) eqn:Hfile.
    + destruct Hcase as [?|(url & mediaType & ->)]; [done|].
      rewrite !patchPost_head by done.
      eexists. split; [reflexivity|]. by split.
    + rewrite patchPost_head by done.
      eexists. split; [reflexivity|]. by split.
  - intros Hfile publish. rewrite Hrun. cbv zeta. rewrite Hfile.
    cbn [List.filter optimisticPost id]. rewrite bool_decide_eq_true_2 by done.
    cbn [negb]. by apply filter_fresh.
Qed.

Lemma createPost_failure_witness :
  trim (draftCaption mediaDraft) ≠ ""%string
  ∧ map (λ post, (id post, delivery_status post))
      (createPost (sessionOf "me") false mediaDraft exampleNow
         (Uploaded "https://img/9" "image") PublishFailed [imagePost])
    = [(tempIdAt exampleNow, Some "failed"%string); ("r1"%string, None)]
  ∧ createPost (sessionOf "me") false mediaDraft exampleNow UploadFailed
      PublishFailed [imagePost] = [imagePost].
Proof.
  assert (trim (draftCaption mediaDraft) ≠ ""%string) as Hcaption
    by (vm_compute; discriminate).
  assert (tempIdAt exampleNow ∉ map id [imagePost]) as Hfresh.
  { apply (bool_decide_unpack _). vm_compute. exact I. }
  split; [exact Hcaption|].
  destruct (createPost_failure (sessionOf "me") mediaDraft exampleNow
              (Uploaded "https://img/9" "image") [imagePost]
              ltac:(discriminate) eq_refl eq_refl Hcaption ltac:(reflexivity) Hfresh)
    as [Hpublish Hupload].
  split.
  - destruct Hpublish as (post & -> & Hid & Hstatus); [right; eauto|].
    cbn [map]. rewrite Hid, Hstatus. reflexivity.
  - apply Hupload. reflexivity.
Defined.

(** * Further properties of the reaction helpers *)

(** X1: whatever is stored, the normalized counts have exactly the five
    known reaction kinds as keys, each with its stored number (0 when the
    record or the key is missing); unknown kinds are dropped, and
    normalizing again changes nothing. *)
Theorem normalizeReactionCounts_shape (value : option (gmap string Z)) :
  dom (normalizeReactionCounts value) = list_to_set reactionKeys
  ∧ Forall (λ k, normalizeReactionCounts value !! k
                 = Some (default 0 (value ≫= (λ v, v !! k)))) reactionKeys
  ∧ normalizeReactionCounts (Some (normalizeReactionCounts value))
    = normalizeReactionCounts value.
Proof.
  assert (∀ k, normalizeReactionCounts value !! k
               = if decide (k ∈ reactionKeys)
                 then Some (default 0 (value ≫= (λ v, v !! k))) else None) as Hlook.
  { intros k. destruct value as [v|]; cbn [mbind option_bind].
    - apply normalizeReactionCounts_lookup.
    - change (normalizeReactionCounts None) with createEmptyReactionCounts.
      rewrite createEmptyReactionCounts_lookup. by case_decide. }
  split; [|split].
  - apply set_eq. intros k. rewrite elem_of_dom, elem_of_list_to_set, Hlook.
    case_decide; split; try done; intros H'; by destruct H'.
  - apply Forall_forall. intros k Hk. by rewrite Hlook, decide_True.
  - apply normalizeReactionCounts_idem.
Qed.

(** X2: the normalized reacted-by map is the stored map restricted to the
    entries with a non-empty user id and a known reaction kind: nothing is
    added or changed, and normalizing again changes nothing. *)
Theorem normalizeReactedBy_filter (stored : gmap string string) :
  normalizeReactedBy (Some stored)
  = filter (λ kv : string * string, kv.1 ≠ ""%string ∧ kv.2 ∈ reactionKeys) stored
  ∧ normalizeReactedBy (Some stored) ⊆ stored
  ∧ normalizeReactedBy (Some (normalizeReactedBy (Some stored)))
    = normalizeReactedBy (Some stored).
Proof.
  assert (normalizeReactedBy (Some stored)
          = filter (λ kv : string * string, kv.1 ≠ ""%string ∧ kv.2 ∈ reactionKeys)
              stored) as Heq.
  { apply map_eq. intros u. apply option_eq. intros k.
    rewrite normalizeReactedBy_lookup, map_lookup_filter_Some. cbn. tauto. }
  split; [exact Heq|]. split.
  - rewrite Heq. apply map_filter_subseteq.
  - apply normalizeReactedBy_idem.
Qed.

Lemma Qc_of_Z_le (a b : Z) : a ≤ b → (Qc_of_Z a ≤ Qc_of_Z b)%Qc.
Proof.
  intros H. change (inject_Z a <= inject_Z b)%Q. by rewrite <- Zle_Qle.
Qed.

Lemma tenth_le (a b : Z) :
  a ≤ b → (Qc_of_Z a * Q2Qc (1 # 10) ≤ Qc_of_Z b * Q2Qc (1 # 10))%Qc.
Proof.
  intros H. apply Qcmult_le_compat_r; [by apply Qc_of_Z_le | done].
Qed.

Lemma Qcmin_mono (c x y : Qc) : (x ≤ y)%Qc → (Qcmin c x ≤ Qcmin c y)%Qc.
Proof.
  intros H. unfold Qcmin. repeat case_decide.
  - apply Qcle_refl.
  - by eapply Qcle_trans.
  - apply Qclt_le_weak. by apply Qclt_nge.
  - done.
Qed.

(** X3: the score is monotone in the engagement total and always lies
    between 0 and 99. *)
Theorem computeSteezeScore_bounds (e1 e2 : Z) :
  e1 ≤ e2 →
  (Qc_of_Z 0 ≤ computeSteezeScore e1)%Qc
  ∧ (computeSteezeScore e1 ≤ computeSteezeScore e2)%Qc
  ∧ (computeSteezeScore e2 ≤ Qc_of_Z 99)%Qc.
Proof.
  intros Hle. unfold computeSteezeScore. split; [|split].
  - unfold Qcmin. case_decide; [done|].
    replace (Qc_of_Z 0) with (Qc_of_Z 0 * Q2Qc (1 # 10))%Qc
      by (apply Qc_is_canon; reflexivity).
    apply tenth_le. lia.
  - apply Qcmin_mono, tenth_le. lia.
  - unfold Qcmin. case_decide; [apply Qcle_refl|].
    apply Qclt_le_weak. by apply Qclt_nge.
Qed.

Lemma computeSteezeScore_bounds_witness :
  3 ≤ 2000
  ∧ (computeSteezeScore 3 ≤ computeSteezeScore 2000)%Qc
  ∧ (computeSteezeScore 2000 ≤ Qc_of_Z 99)%Qc.
Proof.
  assert (3 ≤ 2000) as H by lia.
  split; [exact H|]. exact (proj2 (computeSteezeScore_bounds 3 2000 H)).
Defined.

Lemma tenth_ge (n m : Z) :
  (Qc_of_Z n ≤ Qc_of_Z m * Q2Qc (1 # 10))%Qc ↔ 10 * n ≤ m.
Proof.
  unfold Qcle. cbn [this Qcmult Q2Qc Qc_of_Z]. rewrite Qred_correct.
  change (Qred (1 # 10)) with (1 # 10)%Q. unfold Qle. cbn. lia.
Qed.

Lemma steeze_at_least (n e : Z) :
  0 ≤ n ≤ 99 → (Qc_of_Z n ≤ computeSteezeScore e)%Qc ↔ 10 * n ≤ Z.max 0 e.
Proof.
  intros Hn. unfold computeSteezeScore, Qcmin. case_decide as Hcap.
  - apply tenth_ge in Hcap. split; [lia|]. intros _. apply Qc_of_Z_le. lia.
  - apply tenth_ge.
Qed.

(** X4: a post's tier is decided by its engagement total alone: a score
    computed by [computeSteezeScore] is Standout from 60 reactions,
    Polished from 30, Heating Up from 10, and Fresh below. *)
Theorem steeze_tier_thresholds (engagementCount : Z) :
  getSteezeTier (computeSteezeScore engagementCount)
  = if decide (60 ≤ engagementCount) then Standout
    else if decide (30 ≤ engagementCount) then Polished
    else if decide (10 ≤ engagementCount) then HeatingUp
    else Fresh.
Proof.
  unfold getSteezeTier.
  destruct (decide (Qc_of_Z 6 ≤ _)%Qc) as [H6|H6];
    rewrite (steeze_at_least 6 engagementCount ltac:(lia)) in H6.
  { rewrite decide_True by lia. done. }
  rewrite (decide_False (P := 60 ≤ engagementCount)) by lia.
  destruct (decide (Qc_of_Z 3 ≤ _)%Qc) as [H3|H3];
    rewrite (steeze_at_least 3 engagementCount ltac:(lia)) in H3.
  { rewrite decide_True by lia. done. }
  rewrite (decide_False (P := 30 ≤ engagementCount)) by lia.
  destruct (decide (Qc_of_Z 1 ≤ _)%Qc) as [H1|H1];
    rewrite (steeze_at_least 1 engagementCount ltac:(lia)) in H1.
  { rewrite decide_True by lia. done. }
  rewrite (decide_False (P := 10 ≤ engagementCount)) by lia. done.
Qed.

Lemma normalizeReactionCounts_insert_fixed (rc : gmap string Z) (k : string) (n : Z) :
  normalizeReactionCounts (Some rc) = rc → is_Some (rc !! k) →
  normalizeReactionCounts (Some (<[k := n]> rc)) = <[k := n]> rc.
Proof.
  intros Hfix Hk. apply normalizeReactionCounts_fixed. intros k'.
  rewrite <- (proj1 (normalizeReactionCounts_fixed rc) Hfix k').
  destruct (decide (k' = k)) as [->|?].
  - rewrite lookup_insert_eq. split; eauto.
  - by rewrite lookup_insert_ne.
Qed.

Lemma decrementCurrent_fixed (rc : gmap string Z) (cur : option string) :
  normalizeReactionCounts (Some rc) = rc →
  normalizeReactionCounts (Some (decrementCurrent rc cur)) = decrementCurrent rc cur.
Proof.
  intros Hfix. unfold decrementCurrent. destruct cur as [c|]; [|done].
  destruct (rc !! c) as [n|] eqn:Hc; [|done]. destruct (0 <? n); [|done].
  apply normalizeReactionCounts_insert_fixed; [done|]. by exists n.
Qed.

Lemma incrementNext_fixed (rc : gmap string Z) (next : option string) :
  normalizeReactionCounts (Some rc) = rc →
  (∀ k, next = Some k → k ∈ reactionKeys) →
  normalizeReactionCounts (Some (incrementNext rc next)) = incrementNext rc next.
Proof.
  intros Hfix Hnext. unfold incrementNext. destruct next as [k|]; [|done].
  apply normalizeReactionCounts_insert_fixed; [done|].
  apply (proj1 (normalizeReactionCounts_fixed rc) Hfix). by apply Hnext.
Qed.

(** The next map and counts of a toggle are in normalized form. *)
Lemma toggle_normalized (rc : gmap string Z) (rb : gmap string string) (u key : string) :
  key ∈ reactionKeys → u ≠ ""%string →
  normalizeReactionCounts (Some rc) = rc → normalizeReactedBy (Some rb) = rb →
  let removing := bool_decide (rb !! u = Some key) in
  normalizeReactionCounts
    (Some (incrementNext (decrementCurrent rc (rb !! u))
             (if removing then None else Some key)))
  = incrementNext (decrementCurrent rc (rb !! u)) (if removing then None else Some key)
  ∧ normalizeReactedBy (Some (if removing then delete u rb else <[u := key]> rb))
    = (if removing then delete u rb else <[u := key]> rb).
Proof.
  intros Hkey Hu Hrc Hrb. cbv zeta. split.
  - apply incrementNext_fixed; [by apply decrementCurrent_fixed|].
    intros k. case_bool_decide; [done|]. by intros [= <-].
  - pose proof (proj1 (normalizeReactedBy_fixed rb) Hrb) as Hval.
    apply normalizeReactedBy_fixed. intros u' k' Hk'. case_bool_decide.
    + apply lookup_delete_Some in Hk' as [_ Hk']. by apply Hval.
    + apply lookup_insert_Some in Hk' as [[<- <-]|[_ Hk']]; [done|by apply Hval].
Qed.

(** X5: a toggle never drives a count below zero: when no stored count is
    negative, no count of the toggled post is. *)
Theorem toggle_counts_nonnegative (u key : string) (post : Post) :
  map_Forall (λ _ n, 0 ≤ n) (reactions_count post) →
  map_Forall (λ _ n, 0 ≤ n) (reactions_count (toggleReaction u key post)).
Proof.
  intros Hpos. unfold toggleReaction.
  destruct (negb (includes reactionKeys key) || bool_decide (u = ""%string)); [done|].
  unfold applyOptimisticReaction, reactionDelta.
  cbn [withReactions reactions_count nextReactionsCount].
  set (rc := normalizeReactionCounts (Some (reactions_count post))).
  assert (map_Forall (λ _ n, 0 ≤ n) rc) as Hrc.
  { intros k n Hk. unfold rc in Hk. rewrite normalizeReactionCounts_lookup in Hk.
    case_decide; [|done]. injection Hk as <-.
    destruct (reactions_count post !! k) as [m|] eqn:Hm; cbn; [by eapply Hpos | lia]. }
  assert (∀ cur, map_Forall (λ _ n, 0 ≤ n) (decrementCurrent rc cur)) as Hdec.
  { intros cur. unfold decrementCurrent. destruct cur as [c|]; [|done].
    destruct (rc !! c) as [n|] eqn:Hc; [|done].
    destruct (0 <? n) eqn:Hlt; [|done]. apply Z.ltb_lt in Hlt.
    apply map_Forall_insert_2; [lia | done]. }
  unfold incrementNext. case_bool_decide; [apply Hdec|].
  apply map_Forall_insert_2; [|apply Hdec].
  destruct (decrementCurrent rc _ !! key) as [m|] eqn:Hm; cbn; [|lia].
  apply Hdec in Hm. lia.
Qed.

Lemma toggle_counts_nonnegative_witness :
  map_Forall (λ _ n, 0 ≤ n) (reactions_count consistentPost)
  ∧ map_Forall (λ _ n, 0 ≤ n)
      (reactions_count (toggleReaction "u1" "love" consistentPost)).
Proof.
  assert (map_Forall (λ _ n, 0 ≤ n) (reactions_count consistentPost)) as H.
  { apply (bool_decide_unpack _). vm_compute. exact I. }
  split; [exact H|]. exact (toggle_counts_nonnegative "u1" "love" consistentPost H).
Defined.

(** The total after a toggle is recomputed from the counts: it is the sum
    of the old counts plus one step, whatever total was stored before. *)
Lemma toggle_total_step (u key : string) (post : Post) :
  key ∈ reactionKeys → u ≠ ""%string → postAccounting post →
  engagement_count (toggleReaction u key post)
  = computeReactionTotal (Some (reactions_count post))
    + match reacted_by post !! u with
      | None => 1
      | Some held => if bool_decide (held = key) then -1 else 0
      end.
Proof.
  intros Hkey Hu Hpost.
  pose proof (toggleReaction_accounting u key post Hpost) as [Hnorm1 Hacc1].
  destruct Hpost as [Hnorm Hacc].
  destruct (toggleReaction_fields u key post Hkey Hu Hnorm) as (Hrb1 & _ & Heng1).
  rewrite Heng1, (accounting_total _ _ Hnorm1 Hacc1), (accounting_total _ _ Hnorm Hacc).
  rewrite Hrb1. destruct (reacted_by post !! u) as [held|] eqn:Hheld.
  - destruct (decide (held = key)) as [->|Hne].
    + rewrite !bool_decide_eq_true_2 by done.
      rewrite map_size_delete_Some by (by eexists).
      pose proof (reactors_pos key _ u Hheld) as Hpos.
      assert (size (reacted_by post) ≠ 0%nat).
      { intros H0. apply map_size_empty_iff in H0. rewrite H0 in Hheld.
        by rewrite lookup_empty in Hheld. }
      lia.
    + rewrite (bool_decide_eq_false_2 (Some held = Some key)) by congruence.
      rewrite (bool_decide_eq_false_2 (held = key)) by done.
      rewrite map_size_insert_Some by (by eexists). lia.
  - rewrite (bool_decide_eq_false_2 (None = Some key)) by done.
    rewrite map_size_insert_None by done. lia.
Qed.

(** X6: on a post that satisfies the accounting invariant and whose
    stored engagement total is the sum of its counts, a toggle moves the
    engagement total by exactly one step: up by one when the user held no
    reaction, down by one when the user held the toggled kind, and not at
    all when it replaces another kind. *)
Theorem toggle_engagement_step (u key : string) (post : Post) :
  key ∈ reactionKeys → u ≠ ""%string → postAccounting post →
  engagement_count post = computeReactionTotal (Some (reactions_count post)) →
  engagement_count (toggleReaction u key post)
  = engagement_count post
    + match reacted_by post !! u with
      | None => 1
      | Some held => if bool_decide (held = key) then -1 else 0
      end.
Proof.
  intros Hkey Hu Hpost Hstored. rewrite Hstored.
  by apply toggle_total_step.
Qed.

Lemma toggle_engagement_step_witness :
  "laugh"%string ∈ reactionKeys ∧ "u9"%string ≠ ""%string ∧ postAccounting consistentPost
  ∧ engagement_count consistentPost
    = computeReactionTotal (Some (reactions_count consistentPost))
  ∧ engagement_count consistentPost = 2
  ∧ engagement_count (toggleReaction "u9" "laugh" consistentPost) = 3.
Proof.
  assert ("laugh"%string ∈ reactionKeys) as Hkey by (apply elem_of_reactionKeys; tauto).
  assert ("u9"%string ≠ ""%string) as Hu by discriminate.
  assert (postAccounting consistentPost) as Hacc.
  { split; [split; vm_compute; reflexivity|].
    unfold accounting. apply (bool_decide_unpack _). vm_compute. exact I. }
  assert (engagement_count consistentPost
          = computeReactionTotal (Some (reactions_count consistentPost))) as Hstored
    by (vm_compute; reflexivity).
  split; [exact Hkey|]. split; [exact Hu|]. split; [exact Hacc|].
  split; [exact Hstored|]. split; [vm_compute; reflexivity|].
  rewrite (toggle_engagement_step "u9" "laugh" consistentPost Hkey Hu Hacc Hstored).
  vm_compute. reflexivity.
Defined.

(** X7: the optimistic and the remote step agree.  For a stored record
    that carries both reaction fields, the post normalized from the record
    after the transaction is, field for field, the local post after the
    optimistic toggle. *)
Theorem optimistic_matches_remote (docId u key : string) (data : Doc.t) :
  key ∈ reactionKeys → u ≠ ""%string →
  is_Some (Doc.reactions_count data) → is_Some (Doc.reacted_by data) →
  normalizePost docId (reactionTransaction u key data)
  = toggleReaction u key (normalizePost docId data).
Proof.
  intros Hkey Hu [rc0 Hrc0] [rb0 Hrb0].
  unfold toggleReaction, includes. rewrite bool_decide_eq_true_2 by done.
  rewrite (bool_decide_eq_false_2 (u = ""%string)) by done. cbn [negb orb].
  set (rc := normalizeReactionCounts (Doc.reactions_count data)).
  set (rb := normalizeReactedBy (Doc.reacted_by data)).
  assert (normalizeReactionCounts (Some rc) = rc) as Hrc
    by apply normalizeReactionCounts_idem.
  assert (normalizeReactedBy (Some rb) = rb) as Hrb by apply normalizeReactedBy_idem.
  destruct (toggle_normalized rc rb u key Hkey Hu Hrc Hrb) as [Hrc' Hrb'].
  pose proof (currentReactionOf_lookup rb u Hrb) as Hcur.
  assert (reactions_count (normalizePost docId data) = rc
          ∧ reacted_by (normalizePost docId data) = rb) as [Hprc Hprb].
  { unfold normalizePost. cbn [reactions_count reacted_by].
    rewrite Hrc0, Hrb0. rewrite !(bool_decide_eq_true_2 (is_Some (Some _))) by eauto.
    cbn [negb andb]. unfold rc, rb. by rewrite Hrc0, Hrb0. }
  unfold applyOptimisticReaction, reactionDelta.
  cbn [nextReactedBy nextReactionsCount nextEngagement nextSteeze].
  rewrite Hprc, Hprb, Hrc, Hrb, Hcur.
  unfold reactionTransaction. fold rc rb. rewrite Hcur.
  unfold normalizePost at 1.
  cbn [Doc.reactions_count Doc.reacted_by Doc.engagement_count Doc.steeze_score
       Doc.user_id Doc.created_at Doc.caption Doc.tags Doc.image_url Doc.likes_count
       Doc.liked_by Doc.comments_count Doc.comments Doc.media_type Doc.moderated_status].
  rewrite !(bool_decide_eq_true_2 (is_Some (Some _))) by eauto. cbn [negb andb].
  set (next := if bool_decide (rb !! u = Some key) then None else Some key) in *.
  assert (match next with
          | Some k => <[u := k]> rb
          | None => delete u rb
          end = if bool_decide (rb !! u = Some key) then delete u rb else <[u := key]> rb)
    as Hmatch by (unfold next; by case_bool_decide).
  rewrite Hmatch, Hrc', Hrb'.
  set (rc' := incrementNext (decrementCurrent rc (rb !! u)) next).
  assert (orZ (computeReactionTotal (Some rc')) (computeReactionTotal (Some rc'))
          = computeReactionTotal (Some rc')) as ->.
  { unfold orZ. by destruct (_ =? 0). }
  assert (orQ (computeSteezeScore (computeReactionTotal (Some rc'))) (Qc_of_Z 0)
          = computeSteezeScore (computeReactionTotal (Some rc'))) as ->.
  { unfold orQ. destruct (decide (_ = Qc_of_Z 0)) as [Hzero|]; [by rewrite Hzero | done]. }
  unfold withReactions, normalizePost. reflexivity.
Qed.

Lemma optimistic_matches_remote_witness :
  "laugh"%string ∈ reactionKeys
  ∧ is_Some (Doc.reactions_count consistentDoc)
  ∧ is_Some (Doc.reacted_by consistentDoc)
  ∧ normalizePost "p1" (reactionTransaction "u2" "laugh" consistentDoc)
    = toggleReaction "u2" "laugh" consistentPost.
Proof.
  assert ("laugh"%string ∈ reactionKeys) as Hkey by (apply elem_of_reactionKeys; tauto).
  split; [exact Hkey|]. split; [by eexists|]. split; [by eexists|].
  apply (optimistic_matches_remote "p1" "u2" "laugh" consistentDoc Hkey);
    [discriminate | by eexists | by eexists].
Defined.

(** * Further properties of the ranker *)

Lemma filter_ids_NoDup (f : Post → bool) (posts : list Post) :
  NoDup (map id posts) → NoDup (map id (List.filter f posts)).
Proof.
  induction posts as [|p posts IH]; cbn [map List.filter]; [done|].
  intros [Hp Hnd]%NoDup_cons. destruct (f p); cbn [map]; [|by apply IH].
  apply NoDup_cons. split; [|by apply IH].
  intros Hin. apply Hp. apply list_elem_of_fmap in Hin as (q & -> & Hq).
  apply list_elem_of_fmap. exists q. split; [done|].
  apply list_elem_of_In, filter_In in Hq as [Hq _]. by apply list_elem_of_In.
Qed.

Lemma scoredPosts_ids (nowMs : Z) (styleTags : list string) (userId : string)
    (bucketState : BucketState) :
  map id (scoredPosts nowMs styleTags userId bucketState)
  = map id (List.filter (inWindow nowMs) (mergeBuckets bucketState)).
Proof. unfold scoredPosts. rewrite map_map. by apply map_ext. Qed.

Lemma merged_ids_from_rows (adds : list (Post * Source)) (merged : list Post) (i : string) :
  i ∈ map id (foldl (λ m a, addToMerged m a.1 a.2) merged adds) →
  i ∈ map id merged ∨ i ∈ map (λ a : Post * Source, id a.1) adds.
Proof.
  revert merged. induction adds as [|[row src] adds IH]; intros merged; cbn [foldl map].
  - by left.
  - intros Hin. apply IH in Hin as [Hin|Hin]; [|right; by right].
    cbn [fst snd] in Hin. destruct (addToMerged_next merged row src) as (next & Heq & Hid & _).
    rewrite Heq, mergedSet_ids in Hin. case_bool_decide; [by left|].
    apply elem_of_app in Hin as [Hin|Hin]; [by left|].
    apply list_elem_of_singleton in Hin. right. rewrite Hin, Hid. by left.
Qed.

(** X8: the ranked list holds every merged post that lies inside the
    window exactly once: its identifiers are free of duplicates, they are
    the identifiers of the in-window merged entries, and the merged
    entries are exactly the posts that some bucket delivers. *)
Theorem rankPosts_dedupes (nowMs : Z) (styleTags : list string) (userId : string)
    (bucketState : BucketState) :
  NoDup (map id (rankPosts nowMs styleTags userId bucketState))
  ∧ map id (rankPosts nowMs styleTags userId bucketState)
    ≡ₚ map id (List.filter (inWindow nowMs) (mergeBuckets bucketState))
  ∧ (list_to_set (map id (mergeBuckets bucketState)) : gset string)
    = list_to_set (map (λ a : Post * Source, id a.1) (bucketRows bucketState)).
Proof.
  destruct (mergeBuckets_invariant bucketState) as (Hnd & Hcov & _).
  assert (map id (rankPosts nowMs styleTags userId bucketState)
          ≡ₚ map id (List.filter (inWindow nowMs) (mergeBuckets bucketState))) as Hperm.
  { unfold rankPosts. rewrite sortByScore_Permutation. by rewrite scoredPosts_ids. }
  split; [|split; [exact Hperm|]].
  - rewrite Hperm. by apply filter_ids_NoDup.
  - apply set_eq. intros i. rewrite !elem_of_list_to_set. split.
    + intros Hin. rewrite mergeBuckets_rows in Hin.
      apply merged_ids_from_rows in Hin as [Hin|Hin]; [|done].
      by apply elem_of_nil in Hin.
    + intros Hin. apply list_elem_of_fmap in Hin as ([row src] & -> & Hin).
      by apply (Hcov row src).
Qed.

Lemma lastWriter_foldl (adds0 adds : list (Post * Source)) (merged : list Post) :
  mergeInvariant adds0 merged →
  Forall (lastWriter adds0) merged →
  Forall (lastWriter (adds0 ++ adds))
    (foldl (λ m a, addToMerged m a.1 a.2) merged adds).
Proof.
  revert adds0 merged. induction adds as [|[row src] adds IH]; intros adds0 merged Hinv Hlast.
  - by rewrite app_nil_r.
  - cbn [foldl fst snd]. replace (adds0 ++ (row, src) :: adds)
      with ((adds0 ++ [(row, src)]) ++ adds) by (by rewrite <- app_assoc).
    apply IH; [by apply mergeInvariant_step|].
    apply Forall_forall. intros p Hp. destruct Hinv as (Hnd & _ & _).
    unfold addToMerged in Hp.
    apply mergedSet_elem_NoDup in Hp as [->|[Hp Hne]]; [| |done].
    + exists adds0, row, src, []. split; [done|]. split; [done|]. split; [done|].
      constructor.
    + rewrite Forall_forall in Hlast.
      destruct (Hlast p Hp) as (before & r & s & after & -> & Hid & Hdata & Hafter).
      exists before, r, s, (after ++ [(row, src)]).
      split; [by rewrite <- app_assoc|]. split; [done|]. split; [done|].
      apply Forall_app. split; [done|]. constructor; [|constructor].
      cbn in *. congruence.
Qed.

(** X9: when several snapshots deliver the same post, the merged entry
    carries, in every field that normalizePost sets on each row
    (engagement total, reaction counts and map, comments and their count,
    score, media type, tags, moderation status), the value of the row that
    was merged last (own posts first, then campus, followee shards,
    global).  Fields that a row may lack are not covered. *)
Theorem merge_last_writer_wins (bucketState : BucketState) (p : Post) :
  p ∈ mergeBuckets bucketState → lastWriter (bucketRows bucketState) p.
Proof.
  intros Hp. rewrite mergeBuckets_rows in Hp.
  assert (mergeInvariant [] []) as Hinv.
  { split; [constructor|]. split.
    - intros row src Hin. by apply elem_of_nil in Hin.
    - intros q src Hq. by apply elem_of_nil in Hq. }
  pose proof (lastWriter_foldl [] (bucketRows bucketState) [] Hinv ltac:(constructor)) as H.
  rewrite Forall_forall in H. by apply H.
Qed.

Lemma merge_last_writer_wins_witness :
  map (λ p, (id p, engagement_count p)) (mergeBuckets conflictingBuckets)
  = [("p"%string, 4)]
  ∧ Forall (lastWriter (bucketRows conflictingBuckets)) (mergeBuckets conflictingBuckets).
Proof.
  split; [vm_compute; reflexivity|].
  apply Forall_forall. intros p Hp.
  exact (merge_last_writer_wins conflictingBuckets p Hp).
Defined.

Lemma Qcmax_ge_l (x y : Qc) : (x ≤ Qcmax x y)%Qc.
Proof. unfold Qcmax. case_decide; [done | apply Qcle_refl]. Qed.

Lemma Qcmax_mono (c x y : Qc) : (x ≤ y)%Qc → (Qcmax c x ≤ Qcmax c y)%Qc.
Proof.
  intros H. unfold Qcmax. repeat case_decide.
  - done.
  - exfalso. by eapply H1, Qcle_trans.
  - by eapply Qcle_trans.
  - apply Qcle_refl.
Qed.

Lemma Qcmax_lub (c x b : Qc) : (c ≤ b)%Qc → (x ≤ b)%Qc → (Qcmax c x ≤ b)%Qc.
Proof. intros Hc Hx. unfold Qcmax. by case_decide. Qed.

Lemma hours_mono (a b : Z) :
  a ≤ b → (Qc_of_Z a / Qc_of_Z 3600000 ≤ Qc_of_Z b / Qc_of_Z 3600000)%Qc.
Proof.
  intros H. unfold Qcdiv. apply Qcmult_le_compat_r; [by apply Qc_of_Z_le|].
  apply Qclt_le_weak. reflexivity.
Qed.

Lemma Qcminus_antitone (c x y : Qc) : (x ≤ y)%Qc → (c - y ≤ c - x)%Qc.
Proof.
  intros H. unfold Qcminus. apply Qcplus_le_mono_l. by apply Qcopp_le_compat.
Qed.

(** X10: the recency component decays with age and stays between 0 and
    96: of two posts, the one created earlier never has the larger
    recency, and a post at the end of the 24-hour window or beyond has
    recency 0. *)
Theorem recencyScore_decays (nowMs : Z) (older newer : Post) :
  toMillis (created_at older) ≤ toMillis (created_at newer) →
  (Qc_of_Z 0 ≤ recencyScore nowMs older)%Qc
  ∧ (recencyScore nowMs older ≤ recencyScore nowMs newer)%Qc
  ∧ (recencyScore nowMs newer ≤ Qc_of_Z 96)%Qc
  ∧ (feedWindowMs ≤ nowMs - toMillis (created_at older) →
     recencyScore nowMs older = Qc_of_Z 0).
Proof.
  intros Hle. unfold recencyScore.
  set (age p := Qcmax (Qc_of_Z 0)
                  (Qc_of_Z (nowMs - toMillis (created_at p)) / Qc_of_Z 3600000)).
  assert (Qc_of_Z 0 * Qc_of_Z 4 = Qc_of_Z 0)%Qc as E0
    by (apply Qc_is_canon; reflexivity).
  assert (Qc_of_Z 24 * Qc_of_Z 4 = Qc_of_Z 96)%Qc as E96
    by (apply Qc_is_canon; reflexivity).
  assert (Qc_of_Z 24 - Qc_of_Z 0 = Qc_of_Z 24)%Qc as E24
    by (apply Qc_is_canon; reflexivity).
  assert (Qc_of_Z 24 - Qc_of_Z feedWindowMs / Qc_of_Z 3600000 = Qc_of_Z 0)%Qc as Eend
    by (apply Qc_is_canon; reflexivity).
  assert (∀ p, (Qc_of_Z 0 ≤ Qcmax (Qc_of_Z 0) (Qc_of_Z 24 - age p) * Qc_of_Z 4)%Qc)
    as Hpos.
  { intros p. apply (Qcle_trans _ (Qc_of_Z 0 * Qc_of_Z 4)); [by rewrite E0|].
    apply Qcmult_le_compat_r; [apply Qcmax_ge_l | done]. }
  split; [apply Hpos|]. split; [|split].
  - apply Qcmult_le_compat_r; [|done]. apply Qcmax_mono, Qcminus_antitone.
    unfold age. apply Qcmax_mono, hours_mono. lia.
  - apply (Qcle_trans _ (Qc_of_Z 24 * Qc_of_Z 4)); [|by rewrite E96].
    apply Qcmult_le_compat_r; [|done]. apply Qcmax_lub; [done|].
    apply (Qcle_trans _ (Qc_of_Z 24 - Qc_of_Z 0)); [|by rewrite E24].
    apply Qcminus_antitone, Qcmax_ge_l.
  - intros Hold. apply Qcle_antisym; [|apply Hpos].
    apply (Qcle_trans _ (Qc_of_Z 0 * Qc_of_Z 4)); [|by rewrite E0].
    apply Qcmult_le_compat_r; [|done]. apply Qcmax_lub; [apply Qcle_refl|].
    apply (Qcle_trans _ (Qc_of_Z 24 - Qc_of_Z feedWindowMs / Qc_of_Z 3600000));
      [|by rewrite Eend].
    apply Qcminus_antitone. unfold age.
    apply (Qcle_trans _ (Qc_of_Z (nowMs - toMillis (created_at older))
                         / Qc_of_Z 3600000)); [by apply hours_mono|].
    unfold Qcmax. case_decide; [apply Qcle_refl|].
    apply Qclt_le_weak. by apply Qclt_nge.
Qed.

Lemma recencyScore_decays_witness :
  let older := rowAt "a" "x" (exampleNow - 25 * 3600000) 0 in
  let newer := rowAt "b" "y" (exampleNow - 3600000) 0 in
  toMillis (created_at older) ≤ toMillis (created_at newer)
  ∧ recencyScore exampleNow older = Qc_of_Z 0
  ∧ (recencyScore exampleNow older ≤ recencyScore exampleNow newer)%Qc.
Proof.
  cbv zeta.
  assert (toMillis (created_at (rowAt "a" "x" (exampleNow - 25 * 3600000) 0))
          ≤ toMillis (created_at (rowAt "b" "y" (exampleNow - 3600000) 0))) as H
    by (vm_compute; discriminate).
  destruct (recencyScore_decays exampleNow _ _ H) as (_ & Hmono & _ & Hzero).
  split; [exact H|]. split; [|exact Hmono].
  apply Hzero. vm_compute. discriminate.
Defined.

(** The weight of [author] after folding the merged posts into [weights]. *)
Lemma authorWeights_fold (userId author : string) (merged : list Post)
    (weights : gmap string Z) :
  default 0
    (foldl (λ w post,
              if truthyS (reacted_by post !! userId)
              then bumpWeight 5 w (user_id post)
              else w) weights merged !! author)
  = default 0 (weights !! author)
    + 5 * Z.of_nat (length (reactedPostsBy userId author merged)).
Proof.
  revert weights. induction merged as [|post merged IH]; intros weights.
  - cbn. lia.
  - cbn [foldl]. rewrite IH. unfold reactedPostsBy. cbn [List.filter].
    destruct (truthyS (reacted_by post !! userId)); cbn [andb]; [|done].
    unfold bumpWeight. case_bool_decide as Hauthor.
    + rewrite Hauthor, lookup_insert_eq. cbn [length default from_option].
      unfold orZ, Datatypes.id. destruct (_ =? 0) eqn:Hz; [apply Z.eqb_eq in Hz|]; lia.
    + by rewrite lookup_insert_ne.
Qed.

(** X11: the author affinity of a post is five times the number of merged
    posts by the same author to which the viewer has reacted; nothing
    caps it. *)
Theorem authorAffinity_counts (userId : string) (merged : list Post) (post : Post) :
  authorAffinity (interactionAuthorWeights userId merged) post
  = 5 * Z.of_nat (length (reactedPostsBy userId (user_id post) merged)).
Proof.
  unfold authorAffinity, interactionAuthorWeights.
  rewrite authorWeights_fold, lookup_empty. cbn [default from_option].
  unfold orZ. destruct (_ =? 0) eqn:Hz; [apply Z.eqb_eq in Hz|]; lia.
Qed.

(** * Further properties of the pager and the selections *)

(** X12: [loadMoreFeed] never shows more than the list holds, raises the
    fetch limit in steps without passing the ceiling of 1200, and changes
    the visible count no further once the list is exhausted. *)
Theorem loadMoreFeed_bounds (moodFiltered : list Post) (st : PagerState) :
  (feedFetchLimit st ≤ 1200)%nat →
  let st' := loadMoreFeed moodFiltered st in
  (feedVisibleCount st' ≤ length moodFiltered)%nat
  ∧ (feedFetchLimit st ≤ feedFetchLimit st' ≤ 1200)%nat
  ∧ (feedFetchLimit st' ≤ feedFetchLimit st + 120)%nat
  ∧ ((length moodFiltered ≤ feedVisibleCount st)%nat →
     feedVisibleCount st' = length moodFiltered
     ∧ feedVisibleCount (loadMoreFeed moodFiltered st') = feedVisibleCount st').
Proof.
  intros Hlimit. cbv zeta. unfold loadMoreFeed, feedPageSize.
  cbn [feedVisibleCount feedFetchLimit].
  repeat split; try lia; destruct (_ <=? _)%nat; lia.
Qed.

Lemma loadMoreFeed_bounds_witness :
  (feedFetchLimit (mkPager 12 1140) ≤ 1200)%nat
  ∧ feedFetchLimit (loadMoreFeed smallFeed (mkPager 12 1140)) = 1200%nat
  ∧ (feedVisibleCount (loadMoreFeed smallFeed (mkPager 12 1140)) ≤ length smallFeed)%nat.
Proof.
  assert (feedFetchLimit (mkPager 12 1140) ≤ 1200)%nat as H by (cbn; lia).
  destruct (loadMoreFeed_bounds smallFeed (mkPager 12 1140) H) as (Hcount & _).
  split; [exact H|]. split; [reflexivity | exact Hcount].
Defined.

(** X13: re-fitting the visible count to a changed list never shows more
    than the list holds, never shows less than one page or the previous
    count unless the list is shorter, and is stable when applied again. *)
Theorem syncVisibleCount_fits (moodFiltered : list Post) (prev : nat) :
  (syncVisibleCount moodFiltered prev ≤ length moodFiltered)%nat
  ∧ (Nat.min (length moodFiltered) prev ≤ syncVisibleCount moodFiltered prev)%nat
  ∧ (Nat.min (length moodFiltered) feedPageSize ≤ syncVisibleCount moodFiltered prev)%nat
  ∧ syncVisibleCount moodFiltered (syncVisibleCount moodFiltered prev)
    = syncVisibleCount moodFiltered prev.
Proof.
  unfold syncVisibleCount, feedPageSize.
  destruct (Nat.eqb_spec (length moodFiltered) 0) as [H0|H0]; [lia|].
  destruct (Nat.ltb_spec 0 prev);
    destruct (Nat.ltb_spec 0 (Nat.min (length moodFiltered) (Nat.max 12 prev)));
    destruct (Nat.ltb_spec 0 (Nat.min (length moodFiltered) (Nat.max 12 12)));
    lia.
Qed.

(** X14: the home feed and the reflect feed split the visible posts: each
    visible post is in exactly one of them, the text posts in the home
    feed and all others in the reflect feed. *)
Theorem home_reflect_partition (visible : list Post) :
  homePosts visible ++ reflectPosts visible ≡ₚ visible
  ∧ Forall (λ post, orS (media_type post) "text" = "text"%string) (homePosts visible)
  ∧ Forall (λ post, orS (media_type post) "text" ≠ "text"%string) (reflectPosts visible).
Proof.
  unfold homePosts, reflectPosts. split; [|split].
  - induction visible as [|p visible IH]; [done|]. cbn [List.filter].
    case_bool_decide; cbn [negb].
    + cbn. by rewrite IH.
    + rewrite <- Permutation_middle. by rewrite IH.
  - apply Forall_forall. intros p Hp.
    apply list_elem_of_In, filter_In in Hp as [_ Hp]. by apply bool_decide_eq_true in Hp.
  - apply Forall_forall. intros p Hp.
    apply list_elem_of_In, filter_In in Hp as [_ Hp].
    apply negb_true_iff in Hp. by apply bool_decide_eq_false in Hp.
Qed.

(** * Further properties of the mutations *)

Lemma patchPost_ids (postId : string) (f : Post → Post) (posts : list Post) :
  (∀ post, id (f post) = id post) →
  map id (patchPost postId f posts) = map id posts.
Proof.
  intros Hid. unfold patchPost. rewrite map_map. apply map_ext. intros p.
  by case_bool_decide.
Qed.

Lemma patchPost_others (postId : string) (f : Post → Post) (posts : list Post) :
  (∀ post, id (f post) = id post) →
  List.filter (λ post, negb (bool_decide (id post = postId))) (patchPost postId f posts)
  = List.filter (λ post, negb (bool_decide (id post = postId))) posts.
Proof.
  intros Hid. unfold patchPost. induction posts as [|p posts IH]; [done|].
  cbn [map List.filter]. rewrite IH. destruct (decide (id p = postId)) as [Hp|Hp].
  - rewrite !(bool_decide_eq_true_2 (id p = postId)) by done.
    rewrite bool_decide_eq_true_2 by (by rewrite Hid). done.
  - by rewrite !(bool_decide_eq_false_2 (id p = postId)) by done.
Qed.

(** X15: whatever the session, the reaction kind and the outcome of the
    remote step, [reactToPost] keeps the identifiers of the feed in their
    order and leaves every post other than the target as it was. *)
Theorem reactToPost_frame (s : Session) (posts : list Post) (postId reactionKey : string)
    (outcome : RemoteOutcome) :
  map id (reactToPost s posts postId reactionKey outcome) = map id posts
  ∧ List.filter (λ post, negb (bool_decide (id post = postId)))
      (reactToPost s posts postId reactionKey outcome)
    = List.filter (λ post, negb (bool_decide (id post = postId))) posts.
Proof.
  unfold reactToPost.
  destruct (negb (includes reactionKeys reactionKey)); [done|].
  destruct (findPost postId posts) as [target|]; [|done].
  destruct (bool_decide (currentUserId s = ""%string)); [done|].
  destruct (suspended s); [done|].
  destruct (bool_decide (postId ∈ pendingReactions s)); [done|].
  cbv zeta. destruct (if remoteEnabled s then outcome else RemoteOk).
  - split; [apply patchPost_ids | apply patchPost_others]; by intros [].
  - rewrite patchPost_patchPost by (by intros []).
    split; [apply patchPost_ids | apply patchPost_others]; by intros [].
Qed.

(** X16: [addReflectionComment] keeps the identifiers of the feed in
    their order, leaves every post other than the target as it was, and
    never changes the reaction fields of any post. *)
Theorem addReflectionComment_frame (s : Session) (author : CommentAuthor)
    (posts : list Post) (postId draft : string) (nowMs : Z) (outcome : RemoteOutcome) :
  let after := addReflectionComment s author posts postId draft nowMs outcome in
  map id after = map id posts
  ∧ List.filter (λ post, negb (bool_decide (id post = postId))) after
    = List.filter (λ post, negb (bool_decide (id post = postId))) posts
  ∧ map reacted_by after = map reacted_by posts
  ∧ map reactions_count after = map reactions_count posts.
Proof.
  cbv zeta. unfold addReflectionComment.
  destruct (findPost postId posts) as [target|]; [|done].
  destruct (bool_decide (media_type target = "text"%string)); [done|].
  destruct (suspended s); [done|].
  destruct (bool_decide (postId ∈ pendingComments s)); [done|].
  destruct (_ || _); [done|]. cbv zeta.
  assert (∀ c, map id (patchPost postId (appendComment c) posts) = map id posts
               ∧ List.filter (λ post, negb (bool_decide (id post = postId)))
                   (patchPost postId (appendComment c) posts)
                 = List.filter (λ post, negb (bool_decide (id post = postId))) posts
               ∧ map reacted_by (patchPost postId (appendComment c) posts)
                 = map reacted_by posts
               ∧ map reactions_count (patchPost postId (appendComment c) posts)
                 = map reactions_count posts) as Hpatch.
  { intros c. split; [apply patchPost_ids; by intros []|].
    split; [apply patchPost_others; by intros []|].
    unfold patchPost. rewrite !map_map.
    split; apply map_ext; intros p; by case_bool_decide. }
  destruct (if remoteEnabled s then outcome else RemoteOk); apply Hpatch.
Qed.

Lemma length_sliceTo (n : nat) (s : string) : (String.length (sliceTo n s) ≤ n)%nat.
Proof.
  unfold sliceTo. revert s. induction n as [|n IH]; intros s.
  - destruct s; cbn; lia.
  - destruct s as [|c s]; cbn; [lia|]. specialize (IH s). lia.
Qed.

Lemma sliceTo_prefix (n : nat) (s : string) : String.prefix (sliceTo n s) s = true.
Proof.
  unfold sliceTo. revert s. induction n as [|n IH]; intros s.
  - by destruct s.
  - destruct s as [|c s]; cbn; [done|]. rewrite IH.
    by destruct (Ascii.ascii_dec c c).
Qed.

(** X17: the text of a comment is the beginning of the trimmed draft, cut
    at 220 characters, and the comment is signed with the viewer's id. *)
Theorem buildComment_caps_text (userId : string) (author : CommentAuthor) (text : string)
    (nowMs : Z) :
  (String.length (c_text (buildComment userId author text nowMs)) ≤ 220)%nat
  ∧ String.prefix (c_text (buildComment userId author text nowMs)) text = true
  ∧ String.length (c_text (buildComment userId author text nowMs))
    = Nat.min 220 (String.length text)
  ∧ c_user_id (buildComment userId author text nowMs) = userId.
Proof.
  cbn [buildComment c_text c_user_id]. split; [apply length_sliceTo|].
  split; [apply sliceTo_prefix|]. split; [|done].
  unfold sliceTo. generalize 220%nat. intros n. revert text.
  induction n as [|n IH]; intros text.
  - by destruct text.
  - destruct text as [|c text]; [done|]. cbn. by rewrite IH.
Qed.

(** X18: the stored comment list is bounded.  On a record that is not a
    text post the transaction keeps the most recent 150 comments with the
    new comment last, and stores their number as the comment count; on a
    text post it changes nothing. *)
Theorem commentTransaction_bounded (nextComment : Comment) (data : Doc.t) :
  orS (Doc.media_type data) "text" ≠ "text"%string →
  let data' := commentTransaction nextComment data in
  (length (Doc.comments data') ≤ 150)%nat
  ∧ Doc.comments_count data' = Z.of_nat (length (Doc.comments data'))
  ∧ last (Doc.comments data') = Some nextComment
  ∧ Doc.comments data' `suffix_of` (Doc.comments data ++ [nextComment])
  ∧ length (Doc.comments data')
    = Nat.min 150 (length (Doc.comments data) + 1).
Proof.
  intros Hmedia. cbv zeta. unfold commentTransaction.
  rewrite bool_decide_eq_false_2 by done.
  cbn [Doc.comments Doc.comments_count]. unfold lastN.
  set (all := Doc.comments data ++ [nextComment]).
  assert (length all = S (length (Doc.comments data))) as Hlen
    by (unfold all; rewrite length_app; cbn; lia).
  assert (length (drop (length all - 150) all)
          = Nat.min 150 (length (Doc.comments data) + 1)) as Hdrop
    by (rewrite length_drop; lia).
  split; [lia|]. split; [done|]. split; [|split; [apply suffix_drop | exact Hdrop]].
  unfold all. rewrite drop_app_le by (rewrite ?length_app; cbn; lia).
  by rewrite last_snoc.
Qed.

Lemma commentTransaction_bounded_witness :
  orS (Doc.media_type crowdedDoc) "text" ≠ "text"%string
  ∧ length (Doc.comments crowdedDoc) = 150%nat
  ∧ length (Doc.comments
              (commentTransaction
                 (buildComment "u5" exampleAuthor "late" exampleNow) crowdedDoc))
    = 150%nat.
Proof.
  assert (orS (Doc.media_type crowdedDoc) "text" ≠ "text"%string) as H
    by (vm_compute; discriminate).
  destruct (commentTransaction_bounded
              (buildComment "u5" exampleAuthor "late" exampleNow) crowdedDoc H)
    as (_ & _ & _ & _ & Hlen).
  split; [exact H|]. split; [reflexivity|]. rewrite Hlen. reflexivity.
Defined.

(** * Further properties of delivery and deletion *)

(** X19: a post that passes the guards of [createPost] and whose create
    round-trip succeeds is the first entry of the feed, under the
    identifier of the stored document and tagged ['sent'], with the
    uploaded media when a file was selected; the rest of the feed is
    unchanged and keeps its order. *)
Theorem createPost_success (s : Session) (draft : Draft) (nowMs : Z)
    (url mediaType docId : string) (prev : list Post) :
  currentUserId s ≠ ""%string →
  suspended s = false →
  remoteEnabled s = true →
  trim (draftCaption draft) ≠ ""%string →
  (postMode draft = "reflection"%string → selectedFile draft = true) →
  tempIdAt nowMs ∉ map id prev →
  createPost s false draft nowMs (Uploaded url mediaType) (Published docId) prev
  = (if selectedFile draft
     then withDelivery (withMedia (optimisticPost s draft nowMs) url mediaType) docId
            (Some "sent"%string)
     else withDelivery (optimisticPost s draft nowMs) docId (Some "sent"%string))
    :: prev.
Proof.
  intros Huser Hsusp Hremote Hcaption Hmode Hfresh. unfold createPost.
  rewrite Hsusp.
  rewrite (bool_decide_eq_false_2 (currentUserId s = ""%string)) by done.
  rewrite (bool_decide_eq_false_2 (trim (draftCaption draft) = ""%string)) by done.
  cbn [orb].
  assert ((bool_decide (postMode draft = "reflection"%string)
           && negb (selectedFile draft)) = false) as ->.
  { case_bool_decide as Hm; [|done]. by rewrite (Hmode Hm). }
  unfold publishStep. rewrite Hremote.
  destruct (selectedFile draft); by rewrite !patchPost_head by done.
Qed.

Lemma createPost_success_witness :
  trim (draftCaption mediaDraft) ≠ ""%string
  ∧ (tempIdAt exampleNow ∉ map id [imagePost])
  ∧ map (λ post, (id post, image_url post, delivery_status post))
      (createPost (sessionOf "me") false mediaDraft exampleNow
         (Uploaded "https://img/9" "image") (Published "doc42") [imagePost])
    = [("doc42"%string, "https://img/9"%string, Some "sent"%string);
       ("r1"%string, "https://img/1"%string, None)].
Proof.
  assert (trim (draftCaption mediaDraft) ≠ ""%string) as Hcaption
    by (vm_compute; discriminate).
  assert (tempIdAt exampleNow ∉ map id [imagePost]) as Hfresh.
  { apply (bool_decide_unpack _). vm_compute. exact I. }
  split; [exact Hcaption|]. split; [exact Hfresh|].
  rewrite (createPost_success (sessionOf "me") mediaDraft exampleNow
             "https://img/9" "image" "doc42" [imagePost]
             ltac:(discriminate) eq_refl eq_refl Hcaption ltac:(reflexivity) Hfresh).
  vm_compute. reflexivity.
Defined.

(** X21: only the author of a post or an admin removes it.  When the
    signed-in viewer is the author or an admin, a successful delete leaves
    no post with that identifier and keeps all others in order; a viewer
    who is neither, or is not signed in, leaves the feed unchanged. *)
Theorem deletePost_authorized (s : Session) (posts : list Post) (postId : string)
    (target : Post) :
  findPost postId posts = Some target →
  let after := deletePost s posts postId RemoteOk in
  (canDeletePost s target = true ↔
   currentUserId s ≠ ""%string
   ∧ (isAdmin s = true ∨ user_id target = currentUserId s))
  ∧ (canDeletePost s target = true →
     (postId ∉ map id after)
     ∧ after = List.filter (λ post, negb (bool_decide (id post = postId))) posts)
  ∧ (canDeletePost s target = false → after = posts).
Proof.
  intros Hfind. cbv zeta. split; [|split].
  - unfold canDeletePost. case_bool_decide as Hu.
    + split; [done | tauto].
    + rewrite orb_true_iff, bool_decide_eq_true. tauto.
  - intros Hcan. unfold deletePost. rewrite Hfind, Hcan. cbn [negb].
    assert (postId ∉ map id (List.filter
              (λ post, negb (bool_decide (id post = postId))) posts)) as Hgone.
    { intros Hin. apply list_elem_of_fmap in Hin as (p & -> & Hp).
      apply list_elem_of_In, filter_In in Hp as [_ Hp].
      by rewrite bool_decide_eq_true_2 in Hp. }
    by destruct (negb (remoteEnabled s)).
  - intros Hcan. unfold deletePost. by rewrite Hfind, Hcan.
Qed.

Lemma deletePost_authorized_witness :
  findPost "b" smallFeed = Some (rowAt "b" "z" (exampleNow - 3000) 0)
  ∧ canDeletePost (sessionOf "me") (rowAt "b" "z" (exampleNow - 3000) 0) = false
  ∧ deletePost (sessionOf "me") smallFeed "b" RemoteOk = smallFeed
  ∧ map id (deletePost (sessionOf "me") smallFeed "a" RemoteOk)
    = ["r1"%string; "b"%string].
Proof.
  assert (findPost "b" smallFeed = Some (rowAt "b" "z" (exampleNow - 3000) 0)) as Hfind
    by reflexivity.
  destruct (deletePost_authorized (sessionOf "me") smallFeed "b" _ Hfind)
    as (_ & _ & Hdenied).
  split; [exact Hfind|]. split; [reflexivity|]. split; [by apply Hdenied|].
  vm_compute. reflexivity.
Defined.

(** * Further properties of the helpers *)

Lemma chunksFrom_concat (fuel : nat) (items : list string) (size index : nat) :
  (0 < size)%nat → (length items - index ≤ fuel)%nat →
  concat (chunksFrom fuel items size index) = drop index items.
Proof.
  intros Hsize. revert index. induction fuel as [|fuel IH]; intros index Hfuel.
  - cbn. rewrite drop_ge by lia. done.
  - cbn [chunksFrom]. destruct (Nat.ltb_spec index (length items)) as [Hlt|Hge].
    + cbn [concat]. rewrite IH by lia.
      rewrite <- (take_drop size (drop index items)) at 2.
      by rewrite drop_drop.
    + rewrite drop_ge by lia. done.
Qed.

Lemma chunksFrom_sizes (fuel : nat) (items : list string) (size index : nat) :
  (0 < size)%nat →
  Forall (λ chunk : list string, (0 < length chunk ≤ size)%nat)
    (chunksFrom fuel items size index).
Proof.
  intros Hsize. revert index. induction fuel as [|fuel IH]; intros index; [constructor|].
  cbn [chunksFrom]. destruct (Nat.ltb_spec index (length items)) as [Hlt|Hge];
    [|constructor].
  constructor; [|apply IH]. rewrite length_take, length_drop. lia.
Qed.

Lemma chunksFrom_count (fuel : nat) (items : list string) (size index : nat) :
  (0 < size)%nat →
  (length (chunksFrom fuel items size index) * size
   < (length items - index) + size)%nat.
Proof.
  intros Hsize. revert index. induction fuel as [|fuel IH]; intros index; [cbn; lia|].
  cbn [chunksFrom]. destruct (Nat.ltb_spec index (length items)) as [Hlt|Hge];
    [|cbn; lia].
  cbn [length]. rewrite Nat.mul_succ_l. specialize (IH (index + size)%nat).
  destruct (length (chunksFrom fuel items size (index + size))) as [|k];
    [lia | rewrite Nat.mul_succ_l in *; lia].
Qed.

Lemma chunksFrom_fuel (fuel fuel' : nat) (items : list string) (size index : nat) :
  (0 < size)%nat →
  (length items - index ≤ fuel)%nat → (length items - index ≤ fuel')%nat →
  chunksFrom fuel items size index = chunksFrom fuel' items size index.
Proof.
  intros Hsize. revert fuel' index.
  induction fuel as [|fuel IH]; intros [|fuel'] index Hfuel Hfuel'; cbn [chunksFrom];
    try done.
  - destruct (Nat.ltb_spec index (length items)); [lia | done].
  - destruct (Nat.ltb_spec index (length items)); [lia | done].
  - destruct (Nat.ltb_spec index (length items)); [|done].
    f_equal. apply IH; lia.
Qed.

(** X22: with a positive chunk size, [splitIntoChunks] cuts the list into
    consecutive pieces: put together they give the list back, every piece
    is non-empty and no longer than the size, there are no more pieces
    than needed, and the loop ends within [length items] rounds (more
    rounds give the same result). *)
Theorem splitIntoChunks_partition (items : list string) (size fuel : nat) :
  (0 < size)%nat → (length items ≤ fuel)%nat →
  concat (splitIntoChunks items size) = items
  ∧ Forall (λ chunk : list string, (0 < length chunk ≤ size)%nat)
      (splitIntoChunks items size)
  ∧ (length (splitIntoChunks items size) * size < length items + size)%nat
  ∧ chunksFrom fuel items size 0 = splitIntoChunks items size.
Proof.
  intros Hsize Hfuel. unfold splitIntoChunks. split; [|split; [|split]].
  - rewrite chunksFrom_concat by lia. done.
  - by apply chunksFrom_sizes.
  - pose proof (chunksFrom_count (length items) items size 0 Hsize). lia.
  - apply chunksFrom_fuel; lia.
Qed.

Lemma splitIntoChunks_partition_witness :
  (0 < 2)%nat
  ∧ splitIntoChunks ["a"; "b"; "c"; "d"; "e"]%string 2
    = [["a"; "b"]; ["c"; "d"]; ["e"]]%string
  ∧ concat (splitIntoChunks ["a"; "b"; "c"; "d"; "e"]%string 2)
    = ["a"; "b"; "c"; "d"; "e"]%string.
Proof.
  assert (0 < 2)%nat as H by lia.
  split; [exact H|]. split; [reflexivity|].
  exact (proj1 (splitIntoChunks_partition ["a"; "b"; "c"; "d"; "e"]%string 2 9 H
                  ltac:(cbn; lia))).
Defined.

(** X23: the feed subscribes to at most four followee shards of at most
    ten ids each (the bound of an [in] query); the shards hold the first
    forty followed ids in order, never the viewer's own id and never an
    empty id. *)
Theorem followedShards_bounds (currentUserId : string) (followingIds : list string) :
  let shards := followedShards currentUserId followingIds in
  (length shards ≤ 4)%nat
  ∧ Forall (λ shard : list string, (0 < length shard ≤ 10)%nat) shards
  ∧ concat shards = followedIds currentUserId followingIds
  ∧ (length (concat shards) ≤ 40)%nat
  ∧ Forall (λ i, i ≠ ""%string ∧ i ≠ currentUserId) (concat shards).
Proof.
  cbv zeta. unfold followedShards.
  destruct (splitIntoChunks_partition (followedIds currentUserId followingIds) 10
              (length (followedIds currentUserId followingIds)) ltac:(lia) ltac:(lia))
    as (Hconcat & Hsizes & Hcount & _).
  assert (length (followedIds currentUserId followingIds) ≤ 40)%nat as Hlen.
  { unfold followedIds. rewrite length_take. lia. }
  split; [lia|]. split; [exact Hsizes|]. split; [exact Hconcat|].
  rewrite Hconcat. split; [exact Hlen|].
  unfold followedIds. apply Forall_take. apply Forall_forall. intros i Hi.
  apply list_elem_of_In, filter_In in Hi as [_ Hi].
  apply andb_true_iff in Hi as [H1 H2].
  apply negb_true_iff, bool_decide_eq_false in H1.
  apply negb_true_iff, bool_decide_eq_false in H2. done.
Qed.

Lemma uniqueInOrder_spec (xs seen : list string) :
  NoDup seen →
  NoDup (foldl (λ seen x, if bool_decide (x ∈ seen) then seen else seen ++ [x]) seen xs)
  ∧ ∀ x, x ∈ foldl (λ seen x, if bool_decide (x ∈ seen) then seen else seen ++ [x])
               seen xs
         ↔ x ∈ seen ∨ x ∈ xs.
Proof.
  revert seen. induction xs as [|a xs IH]; intros seen Hnd; cbn [foldl].
  - split; [done|]. intros x. rewrite elem_of_nil. tauto.
  - case_bool_decide as Ha.
    + destruct (IH seen Hnd) as [Hnd' Hin]. split; [done|].
      intros x. rewrite Hin, elem_of_cons. split; [tauto|].
      intros [?|[->|?]]; tauto.
    + assert (NoDup (seen ++ [a])) as Hnd2.
      { apply NoDup_app. split; [done|]. split; [|apply NoDup_singleton].
        intros x Hx ->%list_elem_of_singleton. done. }
      destruct (IH (seen ++ [a]) Hnd2) as [Hnd' Hin]. split; [done|].
      intros x. rewrite Hin, elem_of_app, list_elem_of_singleton, elem_of_cons. tauto.
Qed.

(** X24: the profile lookups ask for each author at most once: the chunks
    hold at most 200 distinct, non-empty author ids of visible posts, ten
    per chunk at most. *)
Theorem profileLookupChunks_bounds (visible : list Post) :
  let chunks := profileLookupChunks visible in
  NoDup (concat chunks)
  ∧ (length (concat chunks) ≤ 200)%nat
  ∧ Forall (λ chunk : list string, (0 < length chunk ≤ 10)%nat) chunks
  ∧ Forall (λ u, u ≠ ""%string) (concat chunks)
  ∧ concat chunks ⊆ map user_id visible.
Proof.
  cbv zeta. unfold profileLookupChunks.
  set (ids := List.filter (λ u, negb (bool_decide (u = ""%string)))
                (map user_id visible)).
  destruct (splitIntoChunks_partition (take 200 (uniqueInOrder ids)) 10
              (length (take 200 (uniqueInOrder ids))) ltac:(lia) ltac:(lia))
    as (Hconcat & Hsizes & _ & _).
  destruct (uniqueInOrder_spec ids [] (NoDup_nil_2)) as [Hnd Hin].
  fold (uniqueInOrder ids) in Hnd, Hin.
  assert (∀ u, u ∈ take 200 (uniqueInOrder ids) →
               u ≠ ""%string ∧ u ∈ map user_id visible) as Hsrc.
  { intros u Hu. apply subseteq_take in Hu. apply Hin in Hu as [Hu|Hu];
      [by apply elem_of_nil in Hu|].
    unfold ids in Hu. apply list_elem_of_In, filter_In in Hu as [Hu Hne].
    apply negb_true_iff, bool_decide_eq_false in Hne.
    split; [done | by apply list_elem_of_In]. }
  rewrite Hconcat. split; [|split; [|split; [|split]]].
  - eapply sublist_NoDup; [exact Hnd | apply sublist_take].
  - rewrite length_take. lia.
  - exact Hsizes.
  - apply Forall_forall. intros u Hu. by apply Hsrc.
  - intros u Hu. by apply Hsrc.
Qed.

Lemma hashText_fold_range (chars : list ascii) (h : Z) :
  0 ≤ h < 2 ^ 32 →
  0 ≤ foldl (λ hash c, (hash * 31 + Z.of_nat (nat_of_ascii c)) mod 2 ^ 32) h chars
  < 2 ^ 32.
Proof.
  revert h. induction chars as [|c chars IH]; intros h Hh; cbn [foldl]; [done|].
  apply IH. apply Z.mod_pos_bound. lia.
Qed.

Lemma pick_elem (l : list string) (i : Z) :
  0 ≤ i < Z.of_nat (length l) → pick l i ∈ l.
Proof.
  intros Hi. unfold pick.
  destruct (l !! Z.to_nat i) as [x|] eqn:Hx.
  - cbn. by eapply list_elem_of_lookup_2.
  - apply lookup_ge_None in Hx. lia.
Qed.

(** X25: the hash of a text is an unsigned 32-bit number, and a room alias
    is always a first word of the first list, a space, and a word of the
    second list; the index never leaves either list. *)
Theorem generateRoomAlias_wellformed (roomId userId : string) :
  0 ≤ hashText (orS roomId "room" +:+ ":" +:+ orS userId "anon") < 2 ^ 32
  ∧ ∃ first second,
      first ∈ roomAliasFirst ∧ second ∈ roomAliasSecond
      ∧ generateRoomAlias roomId userId = first +:+ " " +:+ second.
Proof.
  split; [apply hashText_fold_range; lia|].
  unfold generateRoomAlias. eexists _, _. split; [|split; [|reflexivity]].
  - apply pick_elem. apply Z.mod_pos_bound. cbn. lia.
  - apply pick_elem. apply Z.mod_pos_bound. cbn. lia.
Qed.

Lemma safe_passthrough (error : ErrorInfo) (context : string) :
  trim (errMessage error) ≠ ""%string →
  existsb (λ text, String.prefix text (trim (errMessage error))) safeUserMessages = true →
  getFriendlyErrorMessage error context = trim (errMessage error).
Proof.
  intros Hne Hsafe. unfold getFriendlyErrorMessage. cbv zeta.
  assert (orS (trim (errMessage error))
            (orS (default ""%string (fallbackByContext context)) fallbackGeneral)
          = trim (errMessage error)) as ->.
  { unfold orS at 1. by rewrite bool_decide_eq_false_2. }
  by rewrite Hsafe.
Qed.

(** X26: what the file checks say reaches the user unchanged: a message
    produced by [validateMediaFile] or thrown by [validateFile] is returned
    as it is by [getFriendlyErrorMessage], whatever the error code, the
    error name and the context. *)
Theorem validation_message_passes (file : option MediaFile) (msg code name context : string) :
  msg = validateMediaFile file ∨ validateFile file = Some msg →
  msg ≠ ""%string →
  getFriendlyErrorMessage (mkError msg code name) context = msg.
Proof.
  intros Hsrc Hne.
  assert (msg ∈ ["Select a file to upload."; "Only images are allowed.";
                 "File too large. Max 10MB."; "No file selected.";
                 "Only images and videos are allowed.";
                 "File is too large. Max 60MB."; "File is too large. Max 10MB."]%string)
    as Hmsg.
  { destruct Hsrc as [->|Hsrc].
    - unfold validateMediaFile in *. destruct file as [f|]; [|set_solver].
      destruct (String.prefix "image/" (fileType f)); cbn [negb] in *; [|set_solver].
      destruct (maxImageBytes <? fileSize f); [|done].
      change ("File too large. Max " +:+ pretty (megabytes maxImageBytes) +:+ "MB.")
        with "File too large. Max 10MB."%string. set_solver.
    - unfold validateFile in Hsrc. destruct file as [f|]; [|injection Hsrc as <-; set_solver].
      destruct (String.prefix "video/" (fileType f)),
               (String.prefix "image/" (fileType f)); cbn [negb andb] in Hsrc.
      + destruct (maxVideoBytes <? fileSize f); [|done]. injection Hsrc as <-.
        change ("File is too large. Max " +:+ pretty (megabytes maxVideoBytes) +:+ "MB.")
          with "File is too large. Max 60MB."%string. set_solver.
      + destruct (maxVideoBytes <? fileSize f); [|done]. injection Hsrc as <-.
        change ("File is too large. Max " +:+ pretty (megabytes maxVideoBytes) +:+ "MB.")
          with "File is too large. Max 60MB."%string. set_solver.
      + destruct (maxImageBytes <? fileSize f); [|done]. injection Hsrc as <-.
        change ("File is too large. Max " +:+ pretty (megabytes maxImageBytes) +:+ "MB.")
          with "File is too large. Max 10MB."%string. set_solver.
      + injection Hsrc as <-. set_solver. }
  clear Hsrc Hne. rewrite !elem_of_cons, elem_of_nil in Hmsg.
  destruct Hmsg as [->|[->|[->|[->|[->|[->|[->|[]]]]]]]];
    (rewrite safe_passthrough; cbn [errMessage];
     [vm_compute; reflexivity | vm_compute; discriminate | vm_compute; reflexivity]).
Qed.

Lemma validation_message_passes_witness :
  validateMediaFile (Some hugeImage) = "File too large. Max 10MB."%string
  ∧ getFriendlyErrorMessage
      (mkError (validateMediaFile (Some hugeImage)) "storage/unknown" "Error") "upload"
    = "File too large. Max 10MB."%string.
Proof.
  assert (validateMediaFile (Some hugeImage) = "File too large. Max 10MB."%string) as Hv
    by reflexivity.
  split; [exact Hv|].
  rewrite (validation_message_passes (Some hugeImage)
             (validateMediaFile (Some hugeImage)) "storage/unknown" "Error" "upload"
             (or_introl eq_refl)); [exact Hv|].
  rewrite Hv. discriminate.
Defined.

Lemma fallback_in_texts (context : string) :
  orS (default ""%string (fallbackByContext context)) fallbackGeneral ∈ friendlyTexts.
Proof.
  unfold fallbackByContext.
  repeat (case_bool_decide; [apply (bool_decide_unpack _); vm_compute; exact I|]).
  apply (bool_decide_unpack _). vm_compute. exact I.
Qed.

Lemma authMessage_in_texts (code : string) : authMessage code ∈ friendlyTexts.
Proof.
  unfold authMessage.
  repeat match goal with
         | |- (if ?c then _ else _) ∈ _ =>
             destruct c; [apply (bool_decide_unpack _); vm_compute; exact I|]
         end.
  apply (bool_decide_unpack _). vm_compute. exact I.
Qed.

(** X27: raw error text is never shown unless it opens with one of the
    messages marked safe: every message that [getFriendlyErrorMessage]
    returns is either one of its own fixed texts or the trimmed message of
    the error, and the latter only when that message starts with a safe
    user message. *)
Theorem friendly_message_curated (error : ErrorInfo) (context : string) :
  getFriendlyErrorMessage error context ∈ friendlyTexts
  ∨ (getFriendlyErrorMessage error context = trim (errMessage error)
     ∧ existsb (λ text, String.prefix text (trim (errMessage error))) safeUserMessages
       = true).
Proof.
  unfold getFriendlyErrorMessage. cbv zeta.
  pose proof (fallback_in_texts context) as Hfallback.
  set (fallback := orS (default ""%string (fallbackByContext context)) fallbackGeneral)
    in *.
  set (message := orS (trim (errMessage error)) fallback).
  destruct (existsb _ safeUserMessages) eqn:Hsafe.
  { unfold message, orS in *. case_bool_decide as Hraw; [by left|]. by right. }
  left. clearbody message fallback.
  destruct (String.prefix "auth/" _); [apply authMessage_in_texts|].
  repeat match goal with
         | |- (if ?c then _ else _) ∈ _ =>
             destruct c; [apply (bool_decide_unpack _); vm_compute; exact I|]
         end.
  exact Hfallback.
Qed.

(** X28: a room post lives for the time to live of its room: stamped by
    [postToRoom] at a positive clock value with a non-negative number of
    minutes (60 when the room has none), it passes the filter of the room
    snapshot exactly while the clock is before the stamp; a post without
    expiry stamp always passes. *)
Theorem room_post_lifetime (postedMs postTtlMinutes nowMs : Z) :
  0 < postedMs → 0 ≤ postTtlMinutes →
  (roomPostAlive nowMs (TsFirestore (roomPostExpiry postedMs postTtlMinutes)) = true
   ↔ nowMs < postedMs + (if postTtlMinutes =? 0 then 60 else postTtlMinutes) * 60000)
  ∧ roomPostAlive nowMs TsAbsent = true.
Proof.
  intros Hposted Httl. split; [|done].
  unfold roomPostAlive, roomPostExpiry, orZ. cbn [toMillis].
  rewrite orb_true_iff, Z.eqb_eq, Z.ltb_lt.
  destruct (postTtlMinutes =? 0) eqn:H0; [|apply Z.eqb_neq in H0]; lia.
Qed.

Lemma room_post_lifetime_witness :
  0 < exampleNow ∧ 0 ≤ 30
  ∧ roomPostAlive (exampleNow + 29 * 60000)
      (TsFirestore (roomPostExpiry exampleNow 30)) = true
  ∧ roomPostAlive (exampleNow + 30 * 60000)
      (TsFirestore (roomPostExpiry exampleNow 30)) = false.
Proof.
  assert (0 < exampleNow) as H1 by (vm_compute; reflexivity).
  assert (0 ≤ 30) as H2 by lia.
  split; [exact H1|]. split; [exact H2|]. split.
  - apply (proj1 (room_post_lifetime exampleNow 30 (exampleNow + 29 * 60000) H1 H2)).
    vm_compute. reflexivity.
  - reflexivity.
Defined.
